(** * react-native-markdown-parser: the tokenizer extensions and the
      render-tree builder of [src/components/MarkdownParser.tsx]

    The component turns a Markdown string into a tree of React Native
    elements.  Block and inline grammar is delegated to [marked]; what the
    file itself contains is
    - four inline recognizers registered with [marked.use];
    - the normalisation of line endings before [marked.lexer];
    - the mutually recursive walk [renderToken] / [renderInlineTokens] /
      [renderListItems] from tokens to elements;
    - the [ErrorBoundary] wrapped around the output.

    JavaScript strings are sequences of UTF-16 code units, modelled as
    [list N].  The walk is general recursion in the source; it is embedded
    with an explicit call-depth budget and shown to need a budget linear in
    the nesting depth of the token tree only. *)

From Stdlib Require Import String Ascii.
From Stdlib Require Import NArith ZArith Lia Bool Arith List Permutation.
From Stdlib Require Import DecimalNat.
Import ListNotations.

Set Implicit Arguments.
Set Warnings "-register-all".

(* ================================================================== *)
(** ** JavaScript strings *)

Module JS.

Definition char := N.
Definition str := list char.

(** An ASCII literal of the source as code units. *)
Fixpoint lit (s : string) : str :=
  match s with
  | EmptyString => []
  | String a r => N_of_ascii a :: lit r
  end.

Definition eqb (a b : str) : bool :=
  if list_eq_dec N.eq_dec a b then true else false.

(** [String.prototype.startsWith], as the regular expressions' leading
    literals use it: [strip p s] is what follows [p] at the start of [s]. *)
Fixpoint strip (p s : str) : option str :=
  match p, s with
  | [], _ => Some s
  | a :: p', b :: s' => if N.eqb a b then strip p' s' else None
  | _ :: _, [] => None
  end.

(** Code points that [String.prototype.trim] removes: ECMAScript
    WhiteSpace and LineTerminator. *)
Definition is_space (c : char) : bool :=
  ((9 <=? c) && (c <=? 13) || (c =? 32) || (c =? 160) || (c =? 5760)
   || (8192 <=? c) && (c <=? 8202) || (c =? 8232) || (c =? 8233)
   || (c =? 8239) || (c =? 8287) || (c =? 12288) || (c =? 65279))%N.

Fixpoint trimStart (s : str) : str :=
  match s with
  | c :: r => if is_space c then trimStart r else s
  | [] => []
  end.

Definition trim (s : str) : str := rev (trimStart (rev (trimStart s))).

(** Decimal rendering of a number, as a template literal does it. *)
Fixpoint of_uint (d : Decimal.uint) : str :=
  match d with
  | Decimal.Nil => []
  | Decimal.D0 r => 48%N :: of_uint r
  | Decimal.D1 r => 49%N :: of_uint r
  | Decimal.D2 r => 50%N :: of_uint r
  | Decimal.D3 r => 51%N :: of_uint r
  | Decimal.D4 r => 52%N :: of_uint r
  | Decimal.D5 r => 53%N :: of_uint r
  | Decimal.D6 r => 54%N :: of_uint r
  | Decimal.D7 r => 55%N :: of_uint r
  | Decimal.D8 r => 56%N :: of_uint r
  | Decimal.D9 r => 57%N :: of_uint r
  end.

Definition of_nat (n : nat) : str := of_uint (Nat.to_uint n).

End JS.

Abbreviation jsstring := JS.str.

(** A property of a JavaScript object as the code reads it: missing
    ([undefined]), [null], or holding a value. *)
Inductive field (A : Type) : Type :=
| Undefined
| Null
| Val (a : A).
Arguments Undefined {A}.
Arguments Null {A}.

(** Truthiness of an object-valued property (arrays are truthy even when
    empty). *)
Definition truthy {A} (f : field A) : bool :=
  match f with Val _ => true | _ => false end.

(* ================================================================== *)
(** ** Tokens *)

(** One record for every object the walk reads: block and inline tokens,
    list items and table cells are all plain objects told apart by the
    fields the code looks at.  [raw] and [start] are carried by [marked]'s
    tokens and never read by the walk. *)
Inductive Token : Type := mkToken {
  type    : jsstring;
  raw     : jsstring;
  text    : field jsstring;
  href    : field jsstring;
  depth   : Z;
  tokens  : field (list Token);
  items   : field (list Token);
  ordered : bool;
  start   : field Z;
  task    : bool;
  checked : bool;
  header  : field (list Token);
  rows    : field (list (list Token))
}.

(** The object with nothing set but its [type]. *)
Definition obj (ty : string) : Token :=
  mkToken (JS.lit ty) [] Undefined Undefined 0 Undefined Undefined false
          Undefined false false Undefined Undefined.

Definition set_raw (r : jsstring) (t : Token) : Token :=
  mkToken (type t) r (text t) (href t) (depth t) (tokens t) (items t)
          (ordered t) (start t) (task t) (checked t) (header t) (rows t).
Definition set_text (s : field jsstring) (t : Token) : Token :=
  mkToken (type t) (raw t) s (href t) (depth t) (tokens t) (items t)
          (ordered t) (start t) (task t) (checked t) (header t) (rows t).
Definition set_href (s : field jsstring) (t : Token) : Token :=
  mkToken (type t) (raw t) (text t) s (depth t) (tokens t) (items t)
          (ordered t) (start t) (task t) (checked t) (header t) (rows t).
Definition set_depth (d : Z) (t : Token) : Token :=
  mkToken (type t) (raw t) (text t) (href t) d (tokens t) (items t)
          (ordered t) (start t) (task t) (checked t) (header t) (rows t).
Definition set_tokens (l : field (list Token)) (t : Token) : Token :=
  mkToken (type t) (raw t) (text t) (href t) (depth t) l (items t)
          (ordered t) (start t) (task t) (checked t) (header t) (rows t).
Definition set_items (l : field (list Token)) (t : Token) : Token :=
  mkToken (type t) (raw t) (text t) (href t) (depth t) (tokens t) l
          (ordered t) (start t) (task t) (checked t) (header t) (rows t).
Definition set_ordered (b : bool) (t : Token) : Token :=
  mkToken (type t) (raw t) (text t) (href t) (depth t) (tokens t) (items t)
          b (start t) (task t) (checked t) (header t) (rows t).
Definition set_start (n : field Z) (t : Token) : Token :=
  mkToken (type t) (raw t) (text t) (href t) (depth t) (tokens t) (items t)
          (ordered t) n (task t) (checked t) (header t) (rows t).
Definition set_task (b : bool) (t : Token) : Token :=
  mkToken (type t) (raw t) (text t) (href t) (depth t) (tokens t) (items t)
          (ordered t) (start t) b (checked t) (header t) (rows t).
Definition set_checked (b : bool) (t : Token) : Token :=
  mkToken (type t) (raw t) (text t) (href t) (depth t) (tokens t) (items t)
          (ordered t) (start t) (task t) b (header t) (rows t).
Definition set_header (l : field (list Token)) (t : Token) : Token :=
  mkToken (type t) (raw t) (text t) (href t) (depth t) (tokens t) (items t)
          (ordered t) (start t) (task t) (checked t) l (rows t).
Definition set_rows (l : field (list (list Token))) (t : Token) : Token :=
  mkToken (type t) (raw t) (text t) (href t) (depth t) (tokens t) (items t)
          (ordered t) (start t) (task t) (checked t) (header t) l.

(* ================================================================== *)
(** ** The inline recognizers registered with [marked.use] *)

Module Extensions.

(** [span c s]: the longest prefix of [s] free of [c], and the rest.
    This is how a greedy [[^c]+] scans. *)
Fixpoint span (c : JS.char) (s : jsstring) : jsstring * jsstring :=
  match s with
  | [] => ([], [])
  | a :: r =>
      if N.eqb a c then ([], s)
      else let (run, rest) := span c r in (a :: run, rest)
  end.

(** The four rules have one shape, [/^ open ([^close]+) close /]: a
    literal opener, a non-empty greedy run free of the closing character,
    the closing character.  [exec] returns [match[0]], [match[1]] and the
    unconsumed rest of [src]. *)
Definition exec (opener : jsstring) (close : JS.char) (src : jsstring)
  : option (jsstring * jsstring * jsstring) :=
  match JS.strip opener src with
  | None => None
  | Some after =>
      match span close after with
      | (a :: run, c :: rest) =>
          Some (opener ++ (a :: run) ++ [c], a :: run, rest)
      | _ => None
      end
  end.

Definition caret : JS.char := 94%N.
Definition tilde : JS.char := 126%N.
Definition rbracket : JS.char := 93%N.
Definition rparen : JS.char := 41%N.

(** [/^\^([^^]+)\^/] *)
Definition superscript_rule := exec [caret] caret.
(** [/^~([^~]+)~/] *)
Definition subscript_rule := exec [tilde] tilde.
(** [/^\[\^([^\]]+)\]/] *)
Definition footnote_rule := exec (JS.lit "[^") rbracket.
(** [/^!\[\[video\]\]\(([^)]+)\)/] *)
Definition video_rule := exec (JS.lit "![[video]](") rparen.

Definition superscript_tokenizer (src : jsstring) : option Token :=
  match superscript_rule src with
  | Some (m0, m1, _) =>
      Some (set_text (Val (JS.trim m1)) (set_raw m0 (obj "superscript")))
  | None => None
  end.

Definition subscript_tokenizer (src : jsstring) : option Token :=
  match subscript_rule src with
  | Some (m0, m1, _) =>
      Some (set_text (Val (JS.trim m1)) (set_raw m0 (obj "subscript")))
  | None => None
  end.

Definition footnote_tokenizer (src : jsstring) : option Token :=
  match footnote_rule src with
  | Some (m0, m1, _) =>
      Some (set_text (Val (JS.trim m1)) (set_raw m0 (obj "footnote")))
  | None => None
  end.

Definition video_tokenizer (src : jsstring) : option Token :=
  match video_rule src with
  | Some (m0, m1, _) =>
      Some (set_href (Val (JS.trim m1)) (set_raw m0 (obj "video")))
  | None => None
  end.

(** The [extensions] array handed to [marked.use]. *)
Definition extensions : list (jsstring -> option Token) :=
  [superscript_tokenizer; subscript_tokenizer; footnote_tokenizer;
   video_tokenizer].

End Extensions.

(* ================================================================== *)
(** ** Line-ending normalisation *)

Definition CR : JS.char := 13%N.
Definition LF : JS.char := 10%N.

(** [markdownText.replace(/\r\n|\r/g, "\n")]: scanning left to right, a
    CR together with an LF that follows it, or a CR alone, becomes one LF. *)
Fixpoint normalizedMarkdown (markdownText : jsstring) : jsstring :=
  match markdownText with
  | [] => []
  | c :: r =>
      if N.eqb c CR then
        match r with
        | c' :: r' =>
            if N.eqb c' LF then LF :: normalizedMarkdown r'
            else LF :: normalizedMarkdown r
        | [] => [LF]
        end
      else c :: normalizedMarkdown r
  end.

(* ================================================================== *)
(** ** Render nodes *)

(** [index: string | number], the React key of an element. *)
Inductive Key : Type :=
| KNum (n : nat)
| KStr (s : jsstring).

(** Entries of a [style] array: a slot of the built-in [styles] sheet, the
    same slot of the caller's [customStyles], or an inline object. *)
Inductive StyleItem : Type :=
| Sheet (slot : string)
| Custom (slot : string)
| FontSize (n : Z)
| MarginLeft (n : Z).

Inductive Attr : Type :=
| Style (l : list StyleItem)
| ContentContainerStyle (l : list StyleItem)
| OnPressOpenURL (url : field jsstring)
| AccessibilityRole (r : string)
| AccessibilityLabel (l : field jsstring)
| SourceUri (uri : field jsstring)
| Controls
| Paused
| ResizeMode (m : string).

Inductive Tag : Type := Text | View | Image | Video | ScrollView | Boundary.

(** A [React.ReactNode]: a string, [null], [undefined], or an element with
    its children in order (React flattens arrays among the children). *)
Inductive Node : Type :=
| NString (s : jsstring)
| NNull
| NUndefined
| Element (tag : Tag) (key : option Key) (attrs : list Attr)
          (children : list Node).

(** [{token.text}] as a child. *)
Definition child_of (f : field jsstring) : Node :=
  match f with
  | Val s => NString s
  | Null => NNull
  | Undefined => NUndefined
  end.

(* ================================================================== *)
(** ** Effects of the walk: exceptions and [console.warn] *)

Inductive outcome (A : Type) : Type :=
| Ok (a : A)
| Throw (e : string)
| OutOfFuel.
Arguments Throw {A}.
Arguments OutOfFuel {A}.

(** A computation yields an outcome and the warnings logged on the way. *)
Definition M (A : Type) : Type := (outcome A * list jsstring)%type.

Definition ret {A} (a : A) : M A := (Ok a, []).
Definition throw {A} (e : string) : M A := (Throw e, []).
Definition out_of_fuel {A} : M A := (OutOfFuel, []).
Definition warn (msg : jsstring) : M unit := (Ok tt, [msg]).

Definition bind {A B} (m : M A) (f : A -> M B) : M B :=
  match m with
  | (Ok a, w) => let (o, w') := f a in (o, w ++ w')
  | (Throw e, w) => (Throw e, w)
  | (OutOfFuel, w) => (OutOfFuel, w)
  end.

Notation "x <- m ;; k" := (bind m (fun x => k))
  (at level 61, m at next level, right associativity).

(** The call returned: it did not exhaust its call-depth budget. *)
Definition returns {A} (m : M A) : Prop := fst m <> OutOfFuel.

(** The call raised no exception. *)
Definition no_throw {A} (m : M A) : Prop := forall e, fst m <> Throw e.

(** [m'] is the same call with a larger budget: once [m] returns, the
    extra budget changes nothing. *)
Definition extends {A} (m m' : M A) : Prop := returns m -> m' = m.

(** [Array.prototype.map] with an effectful callback [(element, index)]. *)
Fixpoint map_from {A B} (f : A -> nat -> M B) (i : nat) (l : list A)
  : M (list B) :=
  match l with
  | [] => ret []
  | a :: r =>
      b <- f a i ;;
      bs <- map_from f (S i) r ;;
      ret (b :: bs)
  end.

Definition array_map {A B} (f : A -> nat -> M B) (l : list A) : M (list B) :=
  map_from f 0 l.

Definition null_map : string :=
  "TypeError: Cannot read properties of null (reading 'map')".
Definition undefined_map : string :=
  "TypeError: Cannot read properties of undefined (reading 'map')".

(** [arr.map(f)] on a property that may not hold an array. *)
Definition field_map {A B} (f : A -> nat -> M B) (arr : field (list A))
  : M (list B) :=
  match arr with
  | Val l => array_map f l
  | Null => throw null_map
  | Undefined => throw undefined_map
  end.

(* ================================================================== *)
(** ** The walk *)

(** The [case] labels of [renderToken]'s [switch (token.type)]. *)
Inductive Kind : Type :=
| Kheading | Kparagraph | Ktext | Kstrong | Kem | Kdel | Kcodespan | Klink
| Kimage | Kvideo | Kblockquote | Klist | Ktable | Kcode | Khr | Kbr
| Kspace | Kfootnote | Ksuperscript | Ksubscript
| Kdefault.

Definition dispatch_table : list (string * Kind) :=
  [("heading", Kheading); ("paragraph", Kparagraph); ("text", Ktext);
   ("strong", Kstrong); ("em", Kem); ("del", Kdel);
   ("codespan", Kcodespan); ("link", Klink); ("image", Kimage);
   ("video", Kvideo); ("blockquote", Kblockquote); ("list", Klist);
   ("table", Ktable); ("code", Kcode); ("hr", Khr); ("br", Kbr);
   ("space", Kspace); ("footnote", Kfootnote);
   ("superscript", Ksuperscript); ("subscript", Ksubscript)]%string.

Fixpoint lookup_kind (tbl : list (string * Kind)) (ty : jsstring) : Kind :=
  match tbl with
  | [] => Kdefault
  | (name, k) :: r => if JS.eqb ty (JS.lit name) then k else lookup_kind r ty
  end.

Definition kind_of (ty : jsstring) : Kind := lookup_kind dispatch_table ty.

(** [{ 1: 32, 2: 28, 3: 24, 4: 20, 5: 16, 6: 14 }[token.depth] ?? 14] *)
Definition fontSize (depth : Z) : Z :=
  if (depth =? 1)%Z then 32 else if (depth =? 2)%Z then 28
  else if (depth =? 3)%Z then 24 else if (depth =? 4)%Z then 20
  else if (depth =? 5)%Z then 16 else 14.

(** [token.tokens || [{ type: "text", text: token.text }]] *)
Definition tokens_or_text (token : Token) : field (list Token) :=
  match tokens token with
  | Val ts => Val ts
  | _ => Val [set_text (text token) (obj "text")]
  end.

Definition is_list (t : Token) : bool := JS.eqb (type t) (JS.lit "list").
Definition is_text (t : Token) : bool := JS.eqb (type t) (JS.lit "text").

(** [item.tokens?.filter(p) || []] *)
Definition filter_tokens (p : Token -> bool) (item : Token) : list Token :=
  match tokens item with
  | Val ts => filter p ts
  | _ => []
  end.

Definition checked_box : jsstring := [9745%N; 32%N].
Definition unchecked_box : jsstring := [9744%N; 32%N].
Definition round_bullet : jsstring := [8226%N; 32%N].

(** The bullet of the item at (0-based) [index]. *)
Definition bullet (ordered : bool) (index : nat) (item : Token) : jsstring :=
  if ordered then JS.of_nat (index + 1) ++ JS.lit ". "
  else if task item then
         if checked item then checked_box else unchecked_box
       else round_bullet.

Definition unsupported (ty : jsstring) : jsstring :=
  JS.lit "Unsupported token type: " ++ ty.

Definition dash : jsstring := JS.lit "-".

(** The three functions call each other freely in the source.  Their
    bodies are written once, with the callees as the section's variables;
    the recursion is tied below. *)
Section Bodies.

Variable renderInlineTokens : field (list Token) -> M (list Node).
Variable renderListItems :
  field (list Token) -> bool -> nat -> M (list Node).
Variable renderToken : Token -> Key -> M Node.

(** The callback of [inlineTokens.map]: an array for a [text] token with
    child tokens, one node otherwise; [.flat()] then splices the arrays. *)
Definition inline_part (t : Token) (i : nat) : M (list Node) :=
  if is_text t && truthy (tokens t)
  then renderInlineTokens (tokens t)
  else n <- renderToken t (KStr (JS.lit "in-" ++ JS.of_nat i)) ;;
       ret [n].

Definition renderInlineTokens_body (inlineTokens : field (list Token))
  : M (list Node) :=
  match inlineTokens with
  | Undefined => ret []
  | _ =>
      parts <- field_map inline_part inlineTokens ;;
      ret (concat parts)
  end.

(** The callback of [nestedLists.map]. *)
Definition nested_list (level index : nat) (listToken : Token) (i : nat)
  : M Node :=
  sub <- renderListItems (items listToken) (ordered listToken)
           (level + 1) ;;
  ret (Element View
         (Some (KStr (JS.lit "nested-" ++ JS.of_nat level
                      ++ dash ++ JS.of_nat index
                      ++ dash ++ JS.of_nat i)))
         [Style [Sheet "nestedList"; Custom "nestedList"; MarginLeft 20]]
         sub).

(** The callback of [items.map]. *)
Definition list_item (is_ordered : bool) (level : nat)
  (item : Token) (index : nat) : M Node :=
  let nestedLists := filter_tokens is_list item in
  let contentTokens := filter_tokens (fun t => negb (is_list t)) item in
  inline <- renderInlineTokens (Val contentTokens) ;;
  nested <- array_map (nested_list level index) nestedLists ;;
  ret (Element View
         (Some (KStr (JS.of_nat level ++ dash ++ JS.of_nat index)))
         [Style [Sheet "listitemContainer"; Custom "listitemContainer";
                 MarginLeft (10 * Z.of_nat level)]]
         (Element Text None
            [Style [Sheet "listitem"; Custom "listitem"]]
            (NString (bullet is_ordered index item) :: inline)
          :: nested)).

Definition renderListItems_body (item_list : field (list Token))
  (is_ordered : bool) (level : nat) : M (list Node) :=
  field_map (list_item is_ordered level) item_list.

(** The callbacks of the [table] case. *)
Definition header_cell (cell : Token) (i : nat) : M Node :=
  c <- renderInlineTokens (tokens cell) ;;
  ret (Element Text
         (Some (KStr (JS.lit "header-" ++ JS.of_nat i)))
         [Style [Sheet "tableCell"; Sheet "tableHeader";
                 Custom "tableHeader"]] c).

Definition body_cell (rowIndex : nat) (cell : Token) (cellIndex : nat)
  : M Node :=
  c <- renderInlineTokens (tokens cell) ;;
  ret (Element Text
         (Some (KStr (JS.lit "cell-" ++ JS.of_nat rowIndex ++ dash
                      ++ JS.of_nat cellIndex)))
         [Style [Sheet "tableCell"; Custom "tableCell"]] c).

Definition body_row (row : list Token) (rowIndex : nat) : M Node :=
  cells <- array_map (body_cell rowIndex) row ;;
  ret (Element View
         (Some (KStr (JS.lit "row-" ++ JS.of_nat rowIndex)))
         [Style [Sheet "tableRow"; Custom "tableRow"]] cells).

Definition renderToken_body (token : Token) (index : Key) : M Node :=
  match kind_of (type token) with
  | Kheading =>
      c <- renderInlineTokens (tokens token) ;;
      ret (Element Text (Some index)
             [Style [Sheet "heading"; Custom "heading";
                     FontSize (fontSize (depth token))]] c)
  | Kparagraph =>
      c <- renderInlineTokens (tokens token) ;;
      ret (Element Text (Some index)
             [Style [Sheet "paragraph"; Custom "paragraph"]] c)
  | Ktext => ret (child_of (text token))
  | Kstrong =>
      c <- renderInlineTokens (tokens_or_text token) ;;
      ret (Element Text (Some index)
             [Style [Sheet "strong"; Custom "strong"]] c)
  | Kem =>
      c <- renderInlineTokens (tokens_or_text token) ;;
      ret (Element Text (Some index)
             [Style [Sheet "em"; Custom "em"]] c)
  | Kdel =>
      c <- renderInlineTokens (tokens_or_text token) ;;
      ret (Element Text (Some index)
             [Style [Sheet "del"; Custom "del"]] c)
  | Kcodespan =>
      ret (Element Text (Some index)
             [Style [Sheet "codespan"; Custom "codespan"]]
             [child_of (text token)])
  | Klink =>
      c <- renderInlineTokens (tokens_or_text token) ;;
      ret (Element Text (Some index)
             [Style [Sheet "link"; Custom "link"];
              OnPressOpenURL (href token);
              AccessibilityRole "link";
              AccessibilityLabel (text token)] c)
  | Kimage =>
      ret (Element Image (Some index)
             [SourceUri (href token);
              Style [Sheet "image"; Custom "image"];
              AccessibilityLabel (text token)] [])
  | Kvideo =>
      ret (Element View (Some index)
             [Style [Sheet "video"; Custom "video"]]
             [Element Video None
                [SourceUri (href token);
                 Style [Sheet "videoPlayer"];
                 Controls;
                 ResizeMode "contain";
                 AccessibilityLabel (Val (JS.lit "Video content"));
                 Paused] []])
  | Kblockquote =>
      c <- renderInlineTokens (tokens token) ;;
      ret (Element View (Some index)
             [Style [Sheet "blockquote"; Custom "blockquote"]] c)
  | Klist =>
      c <- renderListItems (items token) (ordered token) 0 ;;
      ret (Element View (Some index)
             [Style [Sheet "list"; Custom "list"]] c)
  | Ktable =>
      hd <- field_map header_cell (header token) ;;
      body <- field_map body_row (rows token) ;;
      ret (Element View (Some index)
             [Style [Sheet "table"; Custom "table"]]
             (Element View None
                [Style [Sheet "tableRow"; Custom "tableRow"]] hd
              :: body))
  | Kcode =>
      ret (Element View (Some index)
             [Style [Sheet "code"; Custom "code"]]
             [Element Text None
                [Style [Sheet "codeText"; Custom "codeText"]]
                [child_of (text token)]])
  | Khr =>
      ret (Element View (Some index) [Style [Sheet "hr"; Custom "hr"]] [])
  | Kbr =>
      ret (Element View (Some index) [Style [Sheet "br"; Custom "br"]] [])
  | Kspace =>
      ret (Element View (Some index)
             [Style [Sheet "space"; Custom "space"]] [])
  | Kfootnote =>
      ret (Element Text (Some index)
             [Style [Sheet "footnote"; Custom "footnote"]]
             [NString (JS.lit "["); child_of (text token);
              NString (JS.lit "]")])
  | Ksuperscript =>
      ret (Element Text (Some index)
             [Style [Sheet "superscript"; Custom "superscript"]]
             [child_of (text token)])
  | Ksubscript =>
      ret (Element Text (Some index)
             [Style [Sheet "subscript"; Custom "subscript"]]
             [child_of (text token)])
  | Kdefault =>
      _ <- warn (unsupported (type token)) ;;
      ret NNull
  end.

End Bodies.

(** The recursion.  Each call spends one unit of [fuel], so [fuel] bounds
    the depth of the call stack; the siblings of an array are walked
    within one call. *)
Fixpoint renderInlineTokens (fuel : nat) (inlineTokens : field (list Token))
  {struct fuel} : M (list Node) :=
  match fuel with
  | O => out_of_fuel
  | S fuel =>
      renderInlineTokens_body (renderInlineTokens fuel) (renderToken fuel)
        inlineTokens
  end

with renderListItems (fuel : nat) (item_list : field (list Token))
  (is_ordered : bool) (level : nat) {struct fuel} : M (list Node) :=
  match fuel with
  | O => out_of_fuel
  | S fuel =>
      renderListItems_body (renderInlineTokens fuel) (renderListItems fuel)
        item_list is_ordered level
  end

with renderToken (fuel : nat) (token : Token) (index : Key)
  {struct fuel} : M Node :=
  match fuel with
  | O => out_of_fuel
  | S fuel =>
      renderToken_body (renderInlineTokens fuel) (renderListItems fuel)
        token index
  end.

(* ================================================================== *)
(** ** The component *)

(** [tokens.map((token, index) => renderToken(token, index))], the child
    expression of the [ScrollView]. *)
Definition render_document (fuel : nat) (tokens : list Token)
  : M (list Node) :=
  array_map (fun token index => renderToken fuel token (KNum index)) tokens.

Module ErrorBoundary.

Record state : Type := { hasError : bool }.

Definition initial : state := {| hasError := false |}.

Definition getDerivedStateFromError : state := {| hasError := true |}.

Definition fallback : Node :=
  Element Text None [Style [Sheet "error"]]
          [NString (JS.lit "Error rendering Markdown")].

(** [render()]: the fallback once an error was caught below the
    boundary, the children otherwise. *)
Definition render (st : state) (children : list Node) : list Node :=
  if hasError st then [fallback] else children.

End ErrorBoundary.

Section Component.

(** [marked.lexer] with the extensions registered. *)
Variable lexer : jsstring -> list Token.

(** The [tokens] of the component: the lexer runs on the normalised
    text. *)
Definition tokens_of (markdownText : jsstring) : list Token :=
  lexer (normalizedMarkdown markdownText).

(** The body of the function component.  The children of a JSX element
    are argument expressions: [render_document] is evaluated here, by
    the component's own call, before the [ErrorBoundary] element is
    created from its result. *)
Definition MarkdownParser (fuel : nat) (markdownText : jsstring) : M Node :=
  children <- render_document fuel (tokens_of markdownText) ;;
  ret (Element Boundary None []
         [Element ScrollView None
            [ContentContainerStyle [Sheet "container"; Custom "container"]]
            children]).

End Component.

(* ================================================================== *)
(** ** Measures and shapes of token trees *)

Definition field_list {A} (f : field (list A)) : list A :=
  match f with Val l => l | _ => [] end.

(** The objects directly below a token. *)
Definition subtokens (t : Token) : list Token :=
  field_list (tokens t) ++ field_list (items t) ++ field_list (header t)
  ++ concat (field_list (rows t)).

Definition max_of {A} (g : A -> nat) (l : list A) : nat :=
  list_max (map g l).

Definition field_max {A} (g : A -> nat) (f : field (list A)) : nat :=
  match f with Val l => max_of g l | _ => 0 end.

(** Nesting depth: a token without children has depth 1. *)
Fixpoint nesting (t : Token) : nat :=
  match t with
  | mkToken _ _ _ _ _ tks its _ _ _ _ hd rws =>
      S (Nat.max (field_max nesting tks)
           (Nat.max (field_max nesting its)
              (Nat.max (field_max nesting hd)
                 (field_max (max_of nesting) rws))))
  end.

Definition is_null {A} (f : field A) : bool :=
  match f with Null => true | _ => false end.

(** What the walk dereferences without a guard: [items] of a list,
    [header] and [rows] of a table, and [tokens] where it is not
    [undefined]. *)
Definition shape_ok (t : Token) : bool :=
  negb (is_null (tokens t))
  && match kind_of (type t) with
     | Klist => truthy (items t)
     | Ktable => truthy (header t) && truthy (rows t)
     | _ => true
     end.

Definition field_all {A} (p : A -> bool) (f : field (list A)) : bool :=
  match f with Val l => forallb p l | _ => true end.

(** Well-formed token trees: every object in the tree has the fields its
    kind needs. *)
Fixpoint well_formed (t : Token) : bool :=
  shape_ok t
  && match t with
     | mkToken _ _ _ _ _ tks its _ _ _ _ hd rws =>
         field_all well_formed tks
         && field_all well_formed its
         && field_all well_formed hd
         && field_all (forallb well_formed) rws
     end.

(** What React displays of a node: [null] and [undefined] children leave
    no node, and keys are identities for reconciliation, not content. *)
Fixpoint visible (n : Node) : list Node :=
  match n with
  | NString s => [NString s]
  | NNull | NUndefined => []
  | Element tag _ attrs children =>
      [Element tag None attrs (flat_map visible children)]
  end.

Definition shown (m : M (list Node)) : outcome (list Node) :=
  match fst m with
  | Ok nodes => Ok (flat_map visible nodes)
  | Throw e => Throw e
  | OutOfFuel => OutOfFuel
  end.

(* ================================================================== *)
(** ** Sample token trees, as [marked.lexer] produces them *)

Module Samples.

Definition text_leaf (s : string) : Token :=
  set_text (Val (JS.lit s)) (set_raw (JS.lit s) (obj "text")).

(** The block-level [text] token of a tight list item: it carries the
    inline tokens of the line. *)
Definition text_block (s : string) : Token :=
  set_tokens (Val [text_leaf s]) (text_leaf s).

Definition list_item (children : list Token) : Token :=
  set_tokens (Val children) (obj "list_item").

Definition plain_item (s : string) : Token := list_item [text_block s].

Definition bullet_list (l : list Token) : Token :=
  set_items (Val l) (obj "list").

(** [- a\n  - b\n    - c] *)
Definition nested3 : Token :=
  bullet_list
    [list_item
       [text_block "a";
        bullet_list
          [list_item
             [text_block "b";
              bullet_list [list_item [text_block "c"]]]]]].

Definition cell (s : string) : Token :=
  set_tokens (Val [text_leaf s]) (set_text (Val (JS.lit s)) (obj "")).

(** A table whose second body row is short and third is long. *)
Definition ragged : Token :=
  set_rows (Val [[cell "1"; cell "2"]; [cell "3"];
                 [cell "4"; cell "5"; cell "6"]])
    (set_header (Val [cell "h1"; cell "h2"]) (obj "table")).

(** [{ type: "table", header: null, rows: [] }] *)
Definition headless : Token :=
  set_rows (Val []) (set_header Null (obj "table")).

Definition paragraph (children : list Token) : Token :=
  set_tokens (Val children) (obj "paragraph").

(** A token of a kind [marked] emits and the walk has no case for. *)
Definition html : Token := set_raw (JS.lit "<hr/>") (obj "html").

End Samples.

(* ================================================================== *)
(** ** The lines of a text *)

(** The lines of a text whatever its line-ending convention: a CR
    followed by an LF, a CR alone and an LF alone each end a line. *)
Fixpoint split_lines (s : jsstring) : list jsstring :=
  match s with
  | [] => [[]]
  | c :: r =>
      if N.eqb c CR then
        match r with
        | c' :: r' =>
            if N.eqb c' LF then [] :: split_lines r'
            else [] :: split_lines r
        | [] => [[]; []]
        end
      else if N.eqb c LF then [] :: split_lines r
      else match split_lines r with
           | l :: ls => (c :: l) :: ls
           | [] => [[c]]
           end
  end.

(** [lines.join(sep)] *)
Fixpoint join (sep : jsstring) (ls : list jsstring) : jsstring :=
  match ls with
  | [] => []
  | [l] => l
  | l :: ls' => l ++ sep ++ join sep ls'
  end.

(** The three line terminators. *)
Definition terminators : list jsstring := [[CR; LF]; [CR]; [LF]].

(** A line holds no terminator. *)
Definition is_line (l : jsstring) : Prop := ~ In CR l /\ ~ In LF l.

(* ================================================================== *)
(** ** Indentation of list items *)

(** The left margin an element adds to what it contains. *)
Definition margin_item (s : StyleItem) : Z :=
  match s with MarginLeft n => n | _ => 0%Z end.

Definition margin_attr (a : Attr) : Z :=
  match a with
  | Style l => fold_right Z.add 0%Z (map margin_item l)
  | _ => 0%Z
  end.

Definition margin_of (attrs : list Attr) : Z :=
  fold_right Z.add 0%Z (map margin_attr attrs).

(** The text node of a list item: the one styled [listitem]. *)
Definition is_item_text (tag : Tag) (attrs : list Attr) : bool :=
  match tag, attrs with
  | Text, [Style [Sheet s; Custom s']] =>
      String.eqb s "listitem" && String.eqb s' "listitem"
  | _, _ => false
  end.

(** The bullets of the list items of a tree, each with the indentation
    of its text: the left margins of the elements around it, summed from
    [offset]. *)
Fixpoint bullets_at (offset : Z) (n : Node) : list (Z * jsstring) :=
  match n with
  | Element tag _ attrs children =>
      let here := (offset + margin_of attrs)%Z in
      if is_item_text tag attrs then
        match children with
        | NString b :: _ => [(here, b)]
        | _ => []
        end
      else flat_map (bullets_at here) children
  | _ => []
  end.

(** The keys of an item's container and of a nested list's container. *)
Definition item_key (level index : nat) : option Key :=
  Some (KStr (JS.of_nat level ++ dash ++ JS.of_nat index)).

Definition nested_key (level index i : nat) : option Key :=
  Some (KStr (JS.lit "nested-" ++ JS.of_nat level ++ dash
              ++ JS.of_nat index ++ dash ++ JS.of_nat i)).

(* ================================================================== *)
(** ** Shapes of built tables *)

Definition header_style : list Attr :=
  [Style [Sheet "tableCell"; Sheet "tableHeader"; Custom "tableHeader"]].
Definition cell_style : list Attr :=
  [Style [Sheet "tableCell"; Custom "tableCell"]].
Definition row_style : list Attr :=
  [Style [Sheet "tableRow"; Custom "tableRow"]].

(** A built node is the cell of [cell]: a text node holding the inline
    rendering of the cell's tokens. *)
Definition cell_of (I : field (list Token) -> M (list Node))
  (style : list Attr) (cell : Token) (node : Node) : Prop :=
  exists key content,
    node = Element Text key style content
    /\ fst (I (tokens cell)) = Ok content.

(** A built row has one cell per cell of its source row, in order. *)
Definition row_of (I : field (list Token) -> M (list Node))
  (style : list Attr) (row : list Token) (cells : list Node) : Prop :=
  length cells = length row
  /\ forall c cell, nth_error row c = Some cell ->
                    exists node, nth_error cells c = Some node
                                 /\ cell_of I style cell node.

(* ================================================================== *)
(** ** What is displayed *)

(** What is displayed of one result, and of the results of a [map]. *)
Definition displayed1 {B} (d : B -> list Node) (m : M B)
  : outcome (list Node) :=
  match fst m with
  | Ok b => Ok (d b)
  | Throw e => Throw e
  | OutOfFuel => OutOfFuel
  end.

Definition displayed {B} (d : B -> list Node) (m : M (list B))
  : outcome (list Node) :=
  match fst m with
  | Ok bs => Ok (flat_map d bs)
  | Throw e => Throw e
  | OutOfFuel => OutOfFuel
  end.

(* ================================================================== *)
(** ** The probes and the HTML renderers of the recognizers *)

Module Probes.

(** [String.prototype.indexOf]: the first position at which [needle]
    occurs in [s], or -1. *)
Fixpoint indexOf (needle s : jsstring) : Z :=
  match JS.strip needle s with
  | Some _ => 0%Z
  | None =>
      match s with
      | [] => (-1)%Z
      | _ :: r =>
          let i := indexOf needle r in
          if (i <? 0)%Z then (-1)%Z else (i + 1)%Z
      end
  end.

(** The [start(src)] hooks. *)
Definition superscript_start (src : jsstring) : Z :=
  indexOf [Extensions.caret] src.
Definition subscript_start (src : jsstring) : Z :=
  indexOf [Extensions.tilde] src.
Definition footnote_start (src : jsstring) : Z :=
  indexOf (JS.lit "[^") src.
Definition video_start (src : jsstring) : Z :=
  indexOf (JS.lit "![[video]]") src.

(** Each registered recognizer: its probe and its tokenizer. *)
Definition registered
  : list ((jsstring -> Z) * (jsstring -> option Token)) :=
  [(superscript_start, Extensions.superscript_tokenizer);
   (subscript_start, Extensions.subscript_tokenizer);
   (footnote_start, Extensions.footnote_tokenizer);
   (video_start, Extensions.video_tokenizer)].

End Probes.

Module Renderers.

(** A property interpolated in a template literal. *)
Definition template (f : field jsstring) : jsstring :=
  match f with
  | Val s => s
  | Null => JS.lit "null"
  | Undefined => JS.lit "undefined"
  end.

Definition quote : jsstring := [34%N].

Definition superscript_renderer (token : Token) : jsstring :=
  JS.lit "<sup>" ++ template (text token) ++ JS.lit "</sup>".

Definition subscript_renderer (token : Token) : jsstring :=
  JS.lit "<sub>" ++ template (text token) ++ JS.lit "</sub>".

Definition footnote_renderer (token : Token) : jsstring :=
  JS.lit "[" ++ template (text token) ++ JS.lit "]".

Definition video_renderer (token : Token) : jsstring :=
  JS.lit "<video src=" ++ quote ++ template (href token) ++ quote
  ++ JS.lit " controls></video>".

End Renderers.

(** A string that [trim] leaves alone: no white space at either end. *)
Definition trimmed (s : jsstring) : Prop :=
  (forall c r, s = c :: r -> JS.is_space c = false)
  /\ (forall c r, s = r ++ [c] -> JS.is_space c = false).

(** The tokens a recognizer found in [src], at most one. *)
Definition found (src : jsstring) (tokenizer : jsstring -> option Token)
  : list Token :=
  match tokenizer src with Some t => [t] | None => [] end.

(** A code unit that is no part of a line terminator. *)
Definition not_terminator (c : JS.char) : bool :=
  negb (N.eqb c CR) && negb (N.eqb c LF).

(* ================================================================== *)
(** ** Predicates on what the walk yields *)

(** A warning of the [default] case. *)
Definition is_unsupported (msg : jsstring) : Prop :=
  exists ty, kind_of ty = Kdefault /\ msg = unsupported ty.

(** The only exceptions the walk raises itself. *)
Definition raises_type_errors_only {A} (m : M A) : Prop :=
  forall e, fst m = Throw e -> e = null_map \/ e = undefined_map.

(** The value of a successful call satisfies [P]. *)
Definition built {A} (P : A -> Prop) (m : M A) : Prop :=
  forall a w, m = (Ok a, w) -> P a.

Definition key_of (n : Node) : option Key :=
  match n with
  | Element _ key _ _ => key
  | _ => None
  end.

(** In a style array later entries win.  Built-in entries rank first,
    the caller's second, computed inline values last. *)
Definition style_rank (s : StyleItem) : nat :=
  match s with
  | Sheet _ => 0
  | Custom _ => 1
  | FontSize _ | MarginLeft _ => 2
  end.

Fixpoint ranked_from (r : nat) (l : list StyleItem) : bool :=
  match l with
  | [] => true
  | s :: l' => (r <=? style_rank s) && ranked_from (style_rank s) l'
  end.

Definition attr_ordered (a : Attr) : bool :=
  match a with
  | Style l | ContentContainerStyle l => ranked_from 0 l
  | _ => true
  end.

(** Every style array of the tree is in rank order. *)
Fixpoint styles_ordered (n : Node) : bool :=
  match n with
  | Element _ _ attrs children =>
      forallb attr_ordered attrs && forallb styles_ordered children
  | _ => true
  end.

(* ================================================================== *)
(** ** The scan cursor *)

(** After a token the host resumes behind it,
    [src.substring(token.raw.length)]. *)
Definition advance (src : jsstring) (tok : Token) : jsstring :=
  skipn (length (raw tok)) src.

(** The cursors the scan reaches from the start of a source by matches
    of the recognizers alone; the host tries them before its own rules. *)
Inductive reached (src : jsstring) : jsstring -> Prop :=
| reached_start : reached src src
| reached_after (tokenizer : jsstring -> option Token) cur tok :
    reached src cur ->
    In tokenizer Extensions.extensions ->
    tokenizer cur = Some tok ->
    reached src (advance cur tok).

(** The source holds a span [~~inner~~], and the scan, standing on the
    second tilde of that span, takes [~inner~] as a subscript. *)
Definition captures_span (src : jsstring) : Prop :=
  exists before inner after tok,
    src = before ++ [Extensions.tilde; Extensions.tilde] ++ inner
          ++ [Extensions.tilde; Extensions.tilde] ++ after
    /\ inner <> [] /\ ~ In Extensions.tilde inner
    /\ reached src ([Extensions.tilde] ++ inner
                    ++ [Extensions.tilde; Extensions.tilde] ++ after)
    /\ Extensions.subscript_tokenizer
         ([Extensions.tilde] ++ inner
          ++ [Extensions.tilde; Extensions.tilde] ++ after) = Some tok
    /\ raw tok = [Extensions.tilde] ++ inner ++ [Extensions.tilde]
    /\ type tok = JS.lit "subscript".

(** The node is no element, or an element keyed [k]. *)
Definition keyed (k : Key) (n : Node) : Prop :=
  match n with
  | Element _ key _ _ => key = Some k
  | _ => True
  end.

(* ================================================================== *)
(** * Properties *)

Unset Implicit Arguments.

(** ** Strings *)

Module JSFacts.

Lemma eqb_eq a b : JS.eqb a b = true <-> a = b.
Proof.
  unfold JS.eqb; destruct (list_eq_dec N.eq_dec a b); split; congruence.
Qed.

Lemma eqb_refl a : JS.eqb a a = true.
Proof. now apply eqb_eq. Qed.

End JSFacts.


(** ** Outcomes *)

Module MonadFacts.

Lemma bind_ret_l {A B} (a : A) (f : A -> M B) : bind (ret a) f = f a.
Proof. unfold bind, ret. now destruct (f a). Qed.

Lemma bind_ret_r {A} (m : M A) : bind m ret = m.
Proof.
  unfold bind, ret. destruct m as [[a|e|] w]; try reflexivity.
  now rewrite app_nil_r.
Qed.

Lemma bind_assoc {A B C} (m : M A) (f : A -> M B) (g : B -> M C) :
  bind (bind m f) g = bind m (fun a => bind (f a) g).
Proof.
  unfold bind. destruct m as [[a|e|] w]; try reflexivity.
  destruct (f a) as [[b|e|] w']; try reflexivity.
  destruct (g b) as [o w'']. now rewrite app_assoc.
Qed.

Lemma bind_Ok_inv {A B} (m : M A) (f : A -> M B) b w :
  bind m f = (Ok b, w) ->
  exists a w1 w2, m = (Ok a, w1) /\ f a = (Ok b, w2) /\ w = w1 ++ w2.
Proof.
  unfold bind. destruct m as [[a|e|] w1]; try discriminate.
  destruct (f a) as [o w2] eqn:E. intros H. injection H as -> <-.
  now exists a, w1, w2.
Qed.

Lemma returns_ret {A} (a : A) : returns (ret a).
Proof. discriminate. Qed.

Lemma returns_throw {A} e : returns (@throw A e).
Proof. discriminate. Qed.

Lemma returns_bind {A B} (m : M A) (f : A -> M B) :
  returns m -> (forall a, returns (f a)) -> returns (bind m f).
Proof.
  unfold returns, bind. destruct m as [[a|e|] w]; simpl; intros Hm Hf.
  - specialize (Hf a). now destruct (f a).
  - discriminate.
  - congruence.
Qed.

Lemma no_throw_ret {A} (a : A) : no_throw (ret a).
Proof. intros e. discriminate. Qed.

Lemma no_throw_out_of_fuel {A} : no_throw (@out_of_fuel A).
Proof. intros e. discriminate. Qed.

Lemma no_throw_bind {A B} (m : M A) (f : A -> M B) :
  no_throw m -> (forall a, no_throw (f a)) -> no_throw (bind m f).
Proof.
  unfold no_throw, bind. destruct m as [[a|e|] w]; simpl; intros Hm Hf e'.
  - specialize (Hf a e'). now destruct (f a).
  - now specialize (Hm e).
  - discriminate.
Qed.

Lemma extends_refl {A} (m : M A) : extends m m.
Proof. now intros _. Qed.

Lemma extends_out_of_fuel {A} (m : M A) : extends out_of_fuel m.
Proof. intros H. now elim H. Qed.

Lemma extends_bind {A B} (m m' : M A) (f f' : A -> M B) :
  extends m m' -> (forall a, extends (f a) (f' a)) ->
  extends (bind m f) (bind m' f').
Proof.
  unfold extends, returns. intros Hm Hf H.
  destruct m as [[a|e|] w]; simpl in *.
  - rewrite Hm by discriminate. simpl.
    specialize (Hf a). destruct (f a) as [o w1]; simpl in *.
    now rewrite Hf.
  - now rewrite Hm.
  - congruence.
Qed.

Lemma extends_trans {A} (m1 m2 m3 : M A) :
  extends m1 m2 -> extends m2 m3 -> extends m1 m3.
Proof.
  unfold extends. intros H12 H23 H1. rewrite <- (H12 H1).
  apply H23. now rewrite (H12 H1).
Qed.

(** *** Arrays *)

Lemma returns_map_from {A B} (f : A -> nat -> M B) l :
  (forall a i, In a l -> returns (f a i)) ->
  forall i, returns (map_from f i l).
Proof.
  induction l as [|a l IH]; intros H i; simpl.
  - apply returns_ret.
  - apply returns_bind; [apply H; now left|]. intros b.
    apply returns_bind; [|intros; apply returns_ret].
    apply IH. intros; apply H; now right.
Qed.

Lemma no_throw_map_from {A B} (f : A -> nat -> M B) l :
  (forall a i, In a l -> no_throw (f a i)) ->
  forall i, no_throw (map_from f i l).
Proof.
  induction l as [|a l IH]; intros H i; simpl.
  - apply no_throw_ret.
  - apply no_throw_bind; [apply H; now left|]. intros b.
    apply no_throw_bind; [|intros; apply no_throw_ret].
    apply IH. intros; apply H; now right.
Qed.

Lemma extends_map_from {A B} (f f' : A -> nat -> M B) l :
  (forall a i, In a l -> extends (f a i) (f' a i)) ->
  forall i, extends (map_from f i l) (map_from f' i l).
Proof.
  induction l as [|a l IH]; intros H i; simpl.
  - apply extends_refl.
  - apply extends_bind; [apply H; now left|]. intros b.
    apply extends_bind; [|intros; apply extends_refl].
    apply IH. intros; apply H; now right.
Qed.

(** A successful [map] yields one result per element, in order. *)
Lemma map_from_Ok_inv {A B} (f : A -> nat -> M B) l :
  forall i bs w,
    map_from f i l = (Ok bs, w) ->
    length bs = length l
    /\ forall n a, nth_error l n = Some a ->
                   exists b w', f a (i + n) = (Ok b, w')
                                /\ nth_error bs n = Some b.
Proof.
  induction l as [|a l IH]; intros i bs w H; simpl in H.
  - injection H as <- <-. split; [reflexivity|].
    intros [|n] a Hn; discriminate.
  - apply bind_Ok_inv in H. destruct H as (b & w1 & w2 & Hb & H & _).
    apply bind_Ok_inv in H. destruct H as (bs' & w3 & w4 & Hbs & H & _).
    injection H as <- _.
    destruct (IH _ _ _ Hbs) as [Hlen Hnth].
    split; [simpl; now rewrite Hlen|].
    intros [|n] a' Hn; simpl in Hn.
    + injection Hn as <-. exists b, w1. now rewrite Nat.add_0_r.
    + destruct (Hnth n a' Hn) as (b' & w' & Hf & Hb').
      exists b', w'. split; [|exact Hb'].
      now replace (i + S n) with (S i + n) by lia.
Qed.

End MonadFacts.

(** ** Token trees *)

Module TreeFacts.

Lemma max_of_In {A} (g : A -> nat) l a : In a l -> g a <= max_of g l.
Proof.
  unfold max_of. induction l as [|b l IH]; simpl; [tauto|].
  intros [->|H]; [lia|]. specialize (IH H). lia.
Qed.

Lemma field_max_In {A} (g : A -> nat) f a :
  In a (field_list f) -> g a <= field_max g f.
Proof.
  destruct f; simpl; try tauto. apply max_of_In.
Qed.

Lemma max_of_incl {A} (g : A -> nat) l l' :
  incl l l' -> max_of g l <= max_of g l'.
Proof.
  unfold max_of at 1. induction l as [|a l IH]; simpl; intros H; [lia|].
  assert (g a <= max_of g l') by (apply max_of_In, H; now left).
  assert (list_max (map g l) <= max_of g l')
    by (apply IH; intros x Hx; apply H; now right).
  lia.
Qed.

Lemma nesting_eq t :
  nesting t
  = S (Nat.max (field_max nesting (tokens t))
         (Nat.max (field_max nesting (items t))
            (Nat.max (field_max nesting (header t))
               (field_max (max_of nesting) (rows t))))).
Proof. now destruct t. Qed.

Lemma nesting_pos t : 1 <= nesting t.
Proof. rewrite nesting_eq. lia. Qed.

Lemma nesting_tokens t : field_max nesting (tokens t) < nesting t.
Proof. rewrite (nesting_eq t). lia. Qed.

Lemma nesting_items t : field_max nesting (items t) < nesting t.
Proof. rewrite (nesting_eq t). lia. Qed.

Lemma nesting_header t : field_max nesting (header t) < nesting t.
Proof. rewrite (nesting_eq t). lia. Qed.

Lemma nesting_rows t : field_max (max_of nesting) (rows t) < nesting t.
Proof. rewrite (nesting_eq t). lia. Qed.

Lemma nesting_filter p item :
  max_of nesting (filter_tokens p item) <= field_max nesting (tokens item).
Proof.
  unfold filter_tokens.
  destruct (tokens item) as [| |ts]; simpl; try (cbv; lia).
  apply max_of_incl. intros x Hx. now apply filter_In in Hx.
Qed.

Lemma filter_tokens_In p item t :
  In t (filter_tokens p item) ->
  In t (field_list (tokens item)) /\ p t = true.
Proof.
  unfold filter_tokens. destruct (tokens item); simpl; try tauto.
  apply filter_In.
Qed.

(** Every object below a token lies strictly less deep. *)
Lemma nesting_subtokens t c : In c (subtokens t) -> nesting c < nesting t.
Proof.
  unfold subtokens. rewrite !in_app_iff, in_concat.
  intros [H|[H|[H|(row & Hrow & H)]]].
  - apply (field_max_In nesting) in H. pose proof (nesting_tokens t). lia.
  - apply (field_max_In nesting) in H. pose proof (nesting_items t). lia.
  - apply (field_max_In nesting) in H. pose proof (nesting_header t). lia.
  - apply (max_of_In nesting) in H.
    apply (field_max_In (max_of nesting)) in Hrow.
    pose proof (nesting_rows t). lia.
Qed.

Lemma well_formed_eq t :
  well_formed t
  = shape_ok t
    && (field_all well_formed (tokens t)
        && field_all well_formed (items t)
        && field_all well_formed (header t)
        && field_all (forallb well_formed) (rows t)).
Proof. now destruct t. Qed.

Lemma field_all_In {A} (p : A -> bool) f a :
  field_all p f = true -> In a (field_list f) -> p a = true.
Proof.
  destruct f; simpl; try tauto.
  intros H. now apply forallb_forall.
Qed.

Lemma well_formed_inv t :
  well_formed t = true ->
  shape_ok t = true
  /\ field_all well_formed (tokens t) = true
  /\ field_all well_formed (items t) = true
  /\ field_all well_formed (header t) = true
  /\ field_all (forallb well_formed) (rows t) = true.
Proof.
  rewrite well_formed_eq, !andb_true_iff. tauto.
Qed.

Lemma well_formed_filter p item :
  well_formed item = true ->
  forallb well_formed (filter_tokens p item) = true.
Proof.
  intros H. apply well_formed_inv in H. destruct H as (_ & H & _).
  apply forallb_forall. intros x Hx.
  apply filter_tokens_In in Hx. destruct Hx as [Hx _].
  now apply (field_all_In _ _ _ H).
Qed.

End TreeFacts.

(** ** The recognizers *)

Module ExtensionsFacts.
Import Extensions.

Lemma strip_app p r : JS.strip p (p ++ r) = Some r.
Proof.
  induction p as [|a p IH]; simpl; [reflexivity|].
  now rewrite N.eqb_refl.
Qed.

Lemma strip_inv p : forall s r, JS.strip p s = Some r -> s = p ++ r.
Proof.
  induction p as [|a p IH]; intros s r H; simpl in *.
  - congruence.
  - destruct s as [|b s]; [discriminate|].
    destruct (N.eqb_spec a b); [|discriminate].
    subst b. f_equal. now apply IH.
Qed.

Lemma span_app c s :
  fst (span c s) ++ snd (span c s) = s.
Proof.
  induction s as [|a s IH]; simpl; [reflexivity|].
  destruct (N.eqb a c); simpl; [reflexivity|].
  destruct (span c s); simpl in *. now f_equal.
Qed.

Lemma span_run_free c s : ~ In c (fst (span c s)).
Proof.
  induction s as [|a s IH]; simpl; [tauto|].
  destruct (N.eqb_spec a c); simpl; [tauto|].
  destruct (span c s); simpl in *. intros [E|E]; [congruence|tauto].
Qed.

Lemma span_rest c s :
  snd (span c s) = [] \/ exists r, snd (span c s) = c :: r.
Proof.
  induction s as [|a s IH]; simpl; [now left|].
  destruct (N.eqb_spec a c); simpl.
  - right. subst. now exists s.
  - destruct (span c s); simpl in *. exact IH.
Qed.

(** A run free of [c] and followed by [c] is what [span] finds. *)
Lemma span_unique c run rest :
  ~ In c run -> span c (run ++ c :: rest) = (run, c :: rest).
Proof.
  induction run as [|a run IH]; simpl; intros H.
  - now rewrite N.eqb_refl.
  - destruct (N.eqb_spec a c); [tauto|].
    rewrite IH by tauto. reflexivity.
Qed.

(** [exec] accepts exactly the language of the pattern
    [opener ([^close]+) close], and its captures are determined by the
    input: the closing character is the first one after the opener. *)
Lemma exec_iff opener close src m0 m1 rest :
  exec opener close src = Some (m0, m1, rest) <->
  src = m0 ++ rest /\ m0 = opener ++ m1 ++ [close]
  /\ m1 <> [] /\ ~ In close m1.
Proof.
  unfold exec. split.
  - destruct (JS.strip opener src) as [after|] eqn:Hs; [|discriminate].
    apply strip_inv in Hs.
    pose proof (span_app close after) as Ha.
    pose proof (span_run_free close after) as Hf.
    pose proof (span_rest close after) as Hr.
    destruct (span close after) as [run rst]; simpl in *.
    destruct run as [|a run]; [discriminate|].
    destruct rst as [|c rst]; [discriminate|].
    intros E. injection E as <- <- <-.
    destruct Hr as [Hr|[r Hr]]; [discriminate|].
    injection Hr as -> ->.
    repeat split.
    + subst src. rewrite <- Ha. simpl.
      repeat (rewrite <- app_assoc; simpl). reflexivity.
    + discriminate.
    + exact Hf.
  - intros (-> & -> & Hne & Hfree).
    rewrite <- !app_assoc. rewrite strip_app.
    simpl. rewrite (span_unique _ _ _ Hfree).
    destruct m1 as [|a m1]; [congruence|]. reflexivity.
Qed.

Lemma exec_double opener close rest :
  exec opener close (opener ++ close :: rest) = None.
Proof.
  unfold exec. rewrite strip_app. simpl. now rewrite N.eqb_refl.
Qed.

End ExtensionsFacts.

(** C2. The superscript rule consumes the first caret pair only:
    [^abc^] gives a superscript token with text [abc]; on [^abc^def^] the
    match is [^abc^] with capture [abc], and [def^] is left over, on which
    (as on its lone caret) every recognizer declines, so it stays literal
    text.  In general the rule matches exactly when the source starts
    with a caret, a non-empty run free of carets, and a caret. *)
Theorem superscript_left_greedy :
  Extensions.superscript_tokenizer (JS.lit "^abc^")
  = Some (set_text (Val (JS.lit "abc"))
            (set_raw (JS.lit "^abc^") (obj "superscript")))
  /\ Extensions.superscript_rule (JS.lit "^abc^def^")
     = Some (JS.lit "^abc^", JS.lit "abc", JS.lit "def^")
  /\ Extensions.superscript_tokenizer (JS.lit "^abc^def^")
     = Some (set_text (Val (JS.lit "abc"))
               (set_raw (JS.lit "^abc^") (obj "superscript")))
  /\ Forall (fun tokenizer => tokenizer (JS.lit "def^") = None
                              /\ tokenizer (JS.lit "^") = None)
            Extensions.extensions
  /\ (forall src m0 m1 rest,
        Extensions.superscript_rule src = Some (m0, m1, rest) <->
        src = m0 ++ rest
        /\ m0 = [Extensions.caret] ++ m1 ++ [Extensions.caret]
        /\ m1 <> [] /\ ~ In Extensions.caret m1)
  /\ (forall src tok,
        Extensions.superscript_tokenizer src = Some tok ->
        exists m1 rest,
          src = raw tok ++ rest
          /\ raw tok = [Extensions.caret] ++ m1 ++ [Extensions.caret]
          /\ m1 <> [] /\ ~ In Extensions.caret m1
          /\ text tok = Val (JS.trim m1)
          /\ type tok = JS.lit "superscript").
Proof.
  split; [reflexivity|]. split; [reflexivity|]. split; [reflexivity|].
  split; [repeat constructor|].
  split.
  - intros. apply ExtensionsFacts.exec_iff.
  - intros src tok H. unfold Extensions.superscript_tokenizer in H.
    destruct (Extensions.superscript_rule src) as [[[m0 m1] rest]|] eqn:E;
      [|discriminate].
    apply ExtensionsFacts.exec_iff in E. destruct E as (E1 & E2 & E3 & E4).
    injection H as <-. exists m1, rest. simpl. repeat split; auto.
Qed.

(** The other recognizers on the inputs of the interface notes, and the
    trimming of a capture. *)
Example recognizer_samples :
  Extensions.video_tokenizer (JS.lit "![[video]](https://x/y.mp4)")
  = Some (set_href (Val (JS.lit "https://x/y.mp4"))
            (set_raw (JS.lit "![[video]](https://x/y.mp4)") (obj "video")))
  /\ Extensions.footnote_tokenizer (JS.lit "[^note] and more")
     = Some (set_text (Val (JS.lit "note"))
               (set_raw (JS.lit "[^note]") (obj "footnote")))
  /\ Extensions.subscript_tokenizer (JS.lit "~ a b ~c")
     = Some (set_text (Val (JS.lit "a b"))
               (set_raw (JS.lit "~ a b ~") (obj "subscript")))
  /\ Extensions.superscript_tokenizer (JS.lit "^^") = None.
Proof. repeat split; reflexivity. Qed.

(** ** Line endings *)

Module LineFacts.

Lemma split_lines_nonempty s : split_lines s <> [].
Proof.
  destruct s as [|c r]; simpl; [discriminate|].
  destruct (N.eqb c CR).
  - destruct r as [|c' r']; [discriminate|].
    destruct (N.eqb c' LF); discriminate.
  - destruct (N.eqb c LF); [discriminate|].
    destruct (split_lines r); discriminate.
Qed.

Lemma join_break sep ls :
  ls <> [] -> join sep ([] :: ls) = sep ++ join sep ls.
Proof. destruct ls; [congruence|reflexivity]. Qed.

Lemma join_cons sep c l ls :
  join sep ((c :: l) :: ls) = c :: join sep (l :: ls).
Proof. destruct ls; reflexivity. Qed.

Lemma normalized_cons c r :
  normalizedMarkdown (c :: r)
  = if N.eqb c CR then
      match r with
      | c' :: r' =>
          if N.eqb c' LF then LF :: normalizedMarkdown r'
          else LF :: normalizedMarkdown r
      | [] => [LF]
      end
    else c :: normalizedMarkdown r.
Proof. reflexivity. Qed.

Lemma split_lines_cons c r :
  split_lines (c :: r)
  = if N.eqb c CR then
      match r with
      | c' :: r' =>
          if N.eqb c' LF then [] :: split_lines r'
          else [] :: split_lines r
      | [] => [[]; []]
      end
    else if N.eqb c LF then [] :: split_lines r
    else match split_lines r with
         | l :: ls => (c :: l) :: ls
         | [] => [[c]]
         end.
Proof. reflexivity. Qed.

(** The normalised text is the lines of the source joined by LF. *)
Lemma normalized_join_le n :
  forall s, length s <= n ->
            normalizedMarkdown s = join [LF] (split_lines s).
Proof.
  induction n as [|n IH]; intros s Hn.
  - destruct s; [reflexivity|simpl in Hn; lia].
  - destruct s as [|c r]; [reflexivity|]. simpl in Hn.
    rewrite normalized_cons, split_lines_cons.
    destruct (N.eqb c CR).
    + destruct r as [|c' r']; [reflexivity|].
      destruct (N.eqb c' LF);
        rewrite join_break by apply split_lines_nonempty;
        cbn [app]; f_equal; apply IH; simpl in *; lia.
    + destruct (N.eqb_spec c LF) as [->|Hc].
      * rewrite join_break by apply split_lines_nonempty.
        cbn [app]. f_equal. apply IH. lia.
      * pose proof (split_lines_nonempty r) as Hne.
        rewrite (IH r) by lia.
        destruct (split_lines r) as [|l ls]; [congruence|].
        now rewrite join_cons.
Qed.

Lemma normalized_join s :
  normalizedMarkdown s = join [LF] (split_lines s).
Proof. now apply (normalized_join_le (length s)). Qed.

(** No CR survives normalisation. *)
Lemma normalized_no_CR_le n :
  forall s, length s <= n -> ~ In CR (normalizedMarkdown s).
Proof.
  induction n as [|n IH]; intros s Hn.
  - destruct s; [simpl; tauto|simpl in Hn; lia].
  - destruct s as [|c r]; [simpl; tauto|]. simpl in Hn.
    rewrite normalized_cons.
    destruct (N.eqb_spec c CR) as [->|Hc].
    + destruct r as [|c' r']; [simpl; intuition discriminate|].
      destruct (N.eqb c' LF); intros [E|E]; try discriminate;
        revert E; apply IH; simpl in *; lia.
    + intros [E|E]; [congruence|]. revert E. apply IH. lia.
Qed.

Lemma normalized_no_CR s : ~ In CR (normalizedMarkdown s).
Proof. now apply (normalized_no_CR_le (length s)). Qed.

(** A line followed by a terminator and more text. *)
Lemma split_lines_line l :
  is_line l ->
  forall rest,
    split_lines (l ++ rest)
    = match split_lines rest with
      | l' :: ls => (l ++ l') :: ls
      | [] => [l]
      end.
Proof.
  intros [Hcr Hlf] rest. induction l as [|c l IH].
  - cbn [app]. destruct (split_lines rest) eqn:E; [|reflexivity].
    exfalso. now apply (split_lines_nonempty rest).
  - cbn [app]. rewrite split_lines_cons.
    destruct (N.eqb_spec c CR) as [->|Hc]; [simpl in Hcr; tauto|].
    destruct (N.eqb_spec c LF) as [->|Hc']; [simpl in Hlf; tauto|].
    rewrite IH by (simpl in *; tauto).
    destruct (split_lines rest); reflexivity.
Qed.

Lemma split_lines_single l : is_line l -> split_lines l = [l].
Proof.
  intros H. rewrite <- (app_nil_r l) at 1.
  rewrite split_lines_line by exact H. simpl. now rewrite app_nil_r.
Qed.

(** The start of what [join e] puts after a terminator: a line, then
    possibly [e] again.  It never starts with LF after a lone CR. *)
Lemma join_head_not_LF e ls r :
  Forall is_line ls -> e = [CR] \/ ls = [] \/ (exists c l ls', ls = (c :: l) :: ls') ->
  join e ls <> LF :: r.
Proof.
  intros Hall H E. destruct ls as [|l ls]; [discriminate|].
  inversion Hall as [|? ? [_ Hl] _]; subst.
  destruct l as [|c l].
  - destruct H as [->|[H|(c & l & ls' & H)]]; try discriminate.
    destruct ls; simpl in E; discriminate.
  - assert (c = LF) by (destruct ls; simpl in E; congruence).
    subst c. simpl in Hl. tauto.
Qed.

(** Written in one convention, a text splits back into its lines:
    texts that hold the same lines in two conventions differ in their
    terminators only. *)
Lemma split_lines_join e ls :
  In e terminators -> ls <> [] -> Forall is_line ls ->
  split_lines (join e ls) = ls.
Proof.
  intros He Hne Hall. induction Hall as [|l ls Hl Hls IH]; [congruence|].
  destruct ls as [|l' ls'].
  - simpl. now apply split_lines_single.
  - change (join e (l :: l' :: ls')) with (l ++ e ++ join e (l' :: ls')).
    rewrite split_lines_line by exact Hl.
    assert (Ht : split_lines (e ++ join e (l' :: ls'))
                 = [] :: split_lines (join e (l' :: ls'))).
    { simpl in He. destruct He as [<-|[<-|[<-|[]]]].
      - reflexivity.
      - cbn [app]. rewrite split_lines_cons. cbn [N.eqb CR Pos.eqb].
        destruct (join [CR] (l' :: ls')) as [|c r] eqn:E; [reflexivity|].
        destruct (N.eqb_spec c LF) as [->|Hc]; [|reflexivity].
        exfalso. revert E. apply join_head_not_LF; auto.
      - reflexivity. }
    rewrite Ht, IH by discriminate. now rewrite app_nil_r.
Qed.

(** The same lines written throughout with one terminator or another
    give the same tokens. *)
Lemma uniform_conventions (lexer : jsstring -> list Token) ls e1 e2 :
  In e1 terminators -> In e2 terminators ->
  ls <> [] -> Forall is_line ls ->
  tokens_of lexer (join e1 ls) = tokens_of lexer (join e2 ls).
Proof.
  intros H1 H2 Hne Hall. unfold tokens_of.
  rewrite !normalized_join, !split_lines_join by assumption.
  reflexivity.
Qed.

End LineFacts.

(** C7. Two sources with the same lines, whatever terminators (CRLF, lone
    CR or LF) end them, are normalised to the same text and so give the
    same token tree; the normalised text holds no CR. *)
Theorem line_endings_invariant :
  forall (lexer : jsstring -> list Token) (s1 s2 : jsstring),
    split_lines s1 = split_lines s2 ->
    normalizedMarkdown s1 = normalizedMarkdown s2
    /\ tokens_of lexer s1 = tokens_of lexer s2
    /\ ~ In CR (normalizedMarkdown s1).
Proof.
  intros lexer s1 s2 H.
  assert (E : normalizedMarkdown s1 = normalizedMarkdown s2)
    by (rewrite !LineFacts.normalized_join; now rewrite H).
  split; [exact E|]. split.
  - unfold tokens_of. now rewrite E.
  - apply LineFacts.normalized_no_CR.
Qed.

(** The same three lines written with CRLF and lone CR on one side and
    with LF on the other. *)
Lemma line_endings_invariant_witness :
  let lexer := fun src : jsstring => [set_raw src (obj "paragraph")] in
  tokens_of lexer [97; 13; 10; 98; 13; 99]%N
  = tokens_of lexer [97; 10; 98; 10; 99]%N.
Proof.
  exact (proj1 (proj2 (line_endings_invariant
                         (fun src => [set_raw src (obj "paragraph")])
                         [97; 13; 10; 98; 13; 99]%N
                         [97; 10; 98; 10; 99]%N eq_refl))).
Defined.

(** ** The walk *)

Module WalkFacts.
Import MonadFacts TreeFacts.

Lemma renderInlineTokens_S fuel inlineTokens :
  renderInlineTokens (S fuel) inlineTokens
  = renderInlineTokens_body (renderInlineTokens fuel) (renderToken fuel)
      inlineTokens.
Proof. reflexivity. Qed.

Lemma renderListItems_S fuel item_list is_ordered level :
  renderListItems (S fuel) item_list is_ordered level
  = renderListItems_body (renderInlineTokens fuel) (renderListItems fuel)
      item_list is_ordered level.
Proof. reflexivity. Qed.

Lemma renderToken_S fuel token index :
  renderToken (S fuel) token index
  = renderToken_body (renderInlineTokens fuel) (renderListItems fuel)
      token index.
Proof. reflexivity. Qed.

Lemma extends_field_map {A B} (f f' : A -> nat -> M B) arr :
  (forall a i, In a (field_list arr) -> extends (f a i) (f' a i)) ->
  extends (field_map f arr) (field_map f' arr).
Proof.
  destruct arr; simpl; intros H; try apply extends_refl.
  now apply extends_map_from.
Qed.

Lemma returns_field_map {A B} (f : A -> nat -> M B) arr :
  (forall a i, In a (field_list arr) -> returns (f a i)) ->
  returns (field_map f arr).
Proof.
  destruct arr; simpl; intros H; try apply returns_throw.
  now apply returns_map_from.
Qed.

Lemma no_throw_field_map {A B} (f : A -> nat -> M B) arr :
  truthy arr = true ->
  (forall a i, In a (field_list arr) -> no_throw (f a i)) ->
  no_throw (field_map f arr).
Proof.
  destruct arr; simpl; intros Ht H; try discriminate.
  now apply no_throw_map_from.
Qed.

(** *** A larger budget changes no result *)

Section BodiesExtend.
Variables I I' : field (list Token) -> M (list Node).
Variables L L' : field (list Token) -> bool -> nat -> M (list Node).
Variables R R' : Token -> Key -> M Node.
Hypothesis HI : forall x, extends (I x) (I' x).
Hypothesis HL : forall x o l, extends (L x o l) (L' x o l).
Hypothesis HR : forall t k, extends (R t k) (R' t k).

Lemma inline_body_extends ts :
  extends (renderInlineTokens_body I R ts)
          (renderInlineTokens_body I' R' ts).
Proof.
  unfold renderInlineTokens_body.
  destruct ts; try apply extends_refl.
  apply extends_bind; [|intros; apply extends_refl].
  apply extends_map_from. intros t i _. unfold inline_part.
  destruct (is_text t && truthy (tokens t)); [apply HI|].
  apply extends_bind; [apply HR|intros; apply extends_refl].
Qed.

Lemma list_body_extends its o l :
  extends (renderListItems_body I L its o l)
          (renderListItems_body I' L' its o l).
Proof.
  unfold renderListItems_body. apply extends_field_map.
  intros item index _. unfold list_item.
  apply extends_bind; [apply HI|]. intros inline.
  apply extends_bind; [|intros; apply extends_refl].
  apply extends_map_from. intros lt i _. unfold nested_list.
  apply extends_bind; [apply HL|intros; apply extends_refl].
Qed.

Lemma token_body_extends t k :
  extends (renderToken_body I L t k) (renderToken_body I' L' t k).
Proof.
  unfold renderToken_body.
  destruct (kind_of (type t));
    try apply extends_refl;
    try (apply extends_bind;
         [first [apply HI | apply HL]|intros; apply extends_refl]).
  (* table *)
  apply extends_bind.
  - apply extends_field_map. intros cell i _. unfold header_cell.
    apply extends_bind; [apply HI|intros; apply extends_refl].
  - intros hd. apply extends_bind; [|intros; apply extends_refl].
    apply extends_field_map. intros row r _. unfold body_row.
    apply extends_bind; [|intros; apply extends_refl].
    apply extends_map_from. intros cell c _. unfold body_cell.
    apply extends_bind; [apply HI|intros; apply extends_refl].
Qed.

End BodiesExtend.

Lemma extends_S fuel :
  (forall ts, extends (renderInlineTokens fuel ts)
                      (renderInlineTokens (S fuel) ts))
  /\ (forall its o l, extends (renderListItems fuel its o l)
                              (renderListItems (S fuel) its o l))
  /\ (forall t k, extends (renderToken fuel t k)
                          (renderToken (S fuel) t k)).
Proof.
  induction fuel as [|fuel (IHI & IHL & IHR)].
  - repeat split; intros; apply extends_out_of_fuel.
  - repeat split; intros.
    + rewrite (renderInlineTokens_S (S fuel)), (renderInlineTokens_S fuel).
      now apply inline_body_extends.
    + rewrite (renderListItems_S (S fuel)), (renderListItems_S fuel).
      now apply list_body_extends.
    + rewrite (renderToken_S (S fuel)), (renderToken_S fuel).
      now apply token_body_extends.
Qed.

Lemma renderToken_extends fuel extra t k :
  extends (renderToken fuel t k) (renderToken (fuel + extra) t k).
Proof.
  induction extra as [|extra IH].
  - rewrite Nat.add_0_r. apply extends_refl.
  - replace (fuel + S extra) with (S (fuel + extra)) by lia.
    eapply extends_trans; [exact IH|apply extends_S].
Qed.

Lemma renderInlineTokens_extends fuel extra ts :
  extends (renderInlineTokens fuel ts)
          (renderInlineTokens (fuel + extra) ts).
Proof.
  induction extra as [|extra IH].
  - rewrite Nat.add_0_r. apply extends_refl.
  - replace (fuel + S extra) with (S (fuel + extra)) by lia.
    eapply extends_trans; [exact IH|apply extends_S].
Qed.

Lemma renderListItems_extends fuel extra its o l :
  extends (renderListItems fuel its o l)
          (renderListItems (fuel + extra) its o l).
Proof.
  induction extra as [|extra IH].
  - rewrite Nat.add_0_r. apply extends_refl.
  - replace (fuel + S extra) with (S (fuel + extra)) by lia.
    eapply extends_trans; [exact IH|apply extends_S].
Qed.

(** *** A budget linear in the nesting depth suffices *)

(** The text token that [tokens_or_text] makes up has no children: two
    calls render it. *)
Lemma synthesized_text fuel s :
  renderInlineTokens (S (S fuel)) (Val [set_text s (obj "text")])
  = (Ok [child_of s], []).
Proof. reflexivity. Qed.

Lemma returns_at fuel :
  (forall ts, 2 * field_max nesting ts + 2 <= fuel ->
              returns (renderInlineTokens fuel ts))
  /\ (forall its o l, 2 * field_max nesting its + 1 <= fuel ->
                      returns (renderListItems fuel its o l))
  /\ (forall t k, 2 * nesting t + 1 <= fuel ->
                  returns (renderToken fuel t k)).
Proof.
  induction fuel as [|fuel (IHI & IHL & IHR)].
  - repeat split; intros; lia.
  - assert (Htok : forall t, 2 * nesting t + 1 <= S fuel ->
                             returns (renderInlineTokens fuel (tokens t))).
    { intros t Ht. apply IHI. pose proof (nesting_tokens t). lia. }
    assert (Hsyn : forall t, 2 * nesting t + 1 <= S fuel ->
                     returns (renderInlineTokens fuel (tokens_or_text t))).
    { intros t Ht. unfold tokens_or_text.
      pose proof (Htok t Ht) as H. pose proof (nesting_pos t).
      destruct (tokens t); try exact H;
        (destruct fuel as [|[|fuel]]; [lia|lia|];
         rewrite synthesized_text; discriminate). }
    repeat split.
    + intros ts Hts. rewrite renderInlineTokens_S.
      unfold renderInlineTokens_body.
      destruct ts as [| |l]; [apply returns_ret|discriminate|].
      apply returns_bind; [|intros; apply returns_ret].
      apply returns_map_from. intros t i Hin. unfold inline_part.
      apply (max_of_In nesting) in Hin. simpl in Hts.
      destruct (is_text t && truthy (tokens t)).
      * apply IHI. pose proof (nesting_tokens t). lia.
      * apply returns_bind; [apply IHR; lia|intros; apply returns_ret].
    + intros its o l Hits. rewrite renderListItems_S.
      unfold renderListItems_body. apply returns_field_map.
      intros item index Hin. apply (field_max_In nesting) in Hin.
      pose proof (nesting_tokens item) as Hitem.
      unfold list_item. apply returns_bind.
      * apply IHI. simpl.
        pose proof (nesting_filter (fun t => negb (is_list t)) item). lia.
      * intros inline. apply returns_bind; [|intros; apply returns_ret].
        apply returns_map_from. intros lt i Hlt. unfold nested_list.
        apply returns_bind; [|intros; apply returns_ret].
        apply IHL. apply filter_tokens_In in Hlt. destruct Hlt as [Hlt _].
        apply (field_max_In nesting) in Hlt.
        pose proof (nesting_items lt). lia.
    + intros t k Ht. rewrite renderToken_S. unfold renderToken_body.
      destruct (kind_of (type t));
        try apply returns_ret;
        try (apply returns_bind;
             [first [now apply Htok | now apply Hsyn]
             |intros; apply returns_ret]).
      * (* list *)
        apply returns_bind; [|intros; apply returns_ret].
        apply IHL. pose proof (nesting_items t). lia.
      * (* table *)
        apply returns_bind.
        -- apply returns_field_map. intros cell i Hin.
           apply (field_max_In nesting) in Hin.
           pose proof (nesting_header t). pose proof (nesting_tokens cell).
           unfold header_cell.
           apply returns_bind; [apply IHI; lia|intros; apply returns_ret].
        -- intros hd. apply returns_bind; [|intros; apply returns_ret].
           apply returns_field_map. intros row r Hrow.
           apply (field_max_In (max_of nesting)) in Hrow.
           unfold body_row.
           apply returns_bind; [|intros; apply returns_ret].
           apply returns_map_from. intros cell c Hin.
           apply (max_of_In nesting) in Hin.
           pose proof (nesting_rows t). pose proof (nesting_tokens cell).
           unfold body_cell.
           apply returns_bind; [apply IHI; lia|intros; apply returns_ret].
Qed.

(** *** Well-formed trees raise nothing *)

Lemma no_throw_at fuel :
  (forall ts, is_null ts = false -> field_all well_formed ts = true ->
              no_throw (renderInlineTokens fuel ts))
  /\ (forall its o l, truthy its = true ->
                      field_all well_formed its = true ->
                      no_throw (renderListItems fuel its o l))
  /\ (forall t k, well_formed t = true ->
                  no_throw (renderToken fuel t k)).
Proof.
  induction fuel as [|fuel (IHI & IHL & IHR)].
  - repeat split; intros; apply no_throw_out_of_fuel.
  - assert (Htok : forall t, well_formed t = true ->
                             no_throw (renderInlineTokens fuel (tokens t))).
    { intros t Ht. apply well_formed_inv in Ht.
      destruct Ht as (Hs & Ht & _). apply IHI; [|exact Ht].
      unfold shape_ok in Hs. apply andb_true_iff in Hs.
      now destruct (is_null (tokens t)). }
    assert (Hsyn : forall t, well_formed t = true ->
                   no_throw (renderInlineTokens fuel (tokens_or_text t))).
    { intros t Ht. pose proof (Htok t Ht) as H. unfold tokens_or_text.
      destruct (tokens t); try exact H; (apply IHI; reflexivity). }
    repeat split.
    + intros ts Hn Hts. rewrite renderInlineTokens_S.
      unfold renderInlineTokens_body.
      destruct ts as [| |l]; [apply no_throw_ret|discriminate|].
      apply no_throw_bind; [|intros; apply no_throw_ret].
      apply no_throw_map_from. intros t i Hin. unfold inline_part.
      assert (Ht : well_formed t = true)
        by (simpl in Hts; now apply (proj1 (forallb_forall _ _) Hts)).
      destruct (is_text t && truthy (tokens t)).
      * now apply Htok.
      * apply no_throw_bind; [now apply IHR|intros; apply no_throw_ret].
    + intros its o l Hv Hits. rewrite renderListItems_S.
      unfold renderListItems_body.
      apply no_throw_field_map; [exact Hv|].
      intros item index Hin.
      assert (Hitem : well_formed item = true)
        by now apply (field_all_In _ _ _ Hits).
      unfold list_item. apply no_throw_bind.
      * apply IHI; [reflexivity|]. now apply well_formed_filter.
      * intros inline. apply no_throw_bind; [|intros; apply no_throw_ret].
        apply no_throw_map_from. intros lt i Hlt. unfold nested_list.
        apply no_throw_bind; [|intros; apply no_throw_ret].
        apply filter_tokens_In in Hlt. destruct Hlt as [Hlt Hk].
        apply well_formed_inv in Hitem. destruct Hitem as (_ & Hts & _).
        pose proof (field_all_In _ _ _ Hts Hlt) as Hwf.
        apply well_formed_inv in Hwf.
        destruct Hwf as (Hs & _ & Hits' & _).
        apply IHL; [|exact Hits'].
        unfold shape_ok in Hs. apply andb_true_iff in Hs.
        destruct Hs as [_ Hs]. unfold is_list in Hk.
        apply JSFacts.eqb_eq in Hk. rewrite Hk in Hs. exact Hs.
    + intros t k Ht. rewrite renderToken_S. unfold renderToken_body.
      pose proof (well_formed_inv _ Ht) as (Hs & _ & Hits & Hhd & Hrows).
      unfold shape_ok in Hs. apply andb_true_iff in Hs.
      destruct Hs as [_ Hs].
      destruct (kind_of (type t));
        try apply no_throw_ret;
        try (apply no_throw_bind;
             [first [now apply Htok | now apply Hsyn]
             |intros; apply no_throw_ret]).
      * (* list *)
        apply no_throw_bind; [|intros; apply no_throw_ret].
        now apply IHL.
      * (* table *)
        apply andb_true_iff in Hs. destruct Hs as [Hh Hr].
        apply no_throw_bind.
        -- apply no_throw_field_map; [exact Hh|]. intros cell i Hin.
           unfold header_cell.
           apply no_throw_bind; [|intros; apply no_throw_ret].
           apply Htok. now apply (field_all_In _ _ _ Hhd).
        -- intros hd. apply no_throw_bind; [|intros; apply no_throw_ret].
           apply no_throw_field_map; [exact Hr|]. intros row r Hrow.
           unfold body_row.
           apply no_throw_bind; [|intros; apply no_throw_ret].
           apply no_throw_map_from. intros cell c Hin.
           unfold body_cell.
           apply no_throw_bind; [|intros; apply no_throw_ret].
           apply Htok.
           pose proof (field_all_In _ _ _ Hrows Hrow) as Hall.
           now apply (proj1 (forallb_forall _ _) Hall).
Qed.

(** Returning without an exception is returning a value. *)
Lemma returns_no_throw_Ok {A} (m : M A) :
  returns m -> no_throw m -> exists a, fst m = Ok a.
Proof.
  unfold returns, no_throw. destruct m as [[a|e|] w]; simpl; intros H H'.
  - now exists a.
  - now elim (H' e).
  - now elim H.
Qed.

Lemma renderToken_Ok t k extra :
  well_formed t = true ->
  exists node, fst (renderToken (2 * nesting t + 1 + extra) t k) = Ok node.
Proof.
  intros H. apply returns_no_throw_Ok.
  - apply returns_at. lia.
  - now apply no_throw_at.
Qed.

Lemma renderInlineTokens_Ok ts extra :
  is_null ts = false -> field_all well_formed ts = true ->
  exists nodes,
    fst (renderInlineTokens (2 * field_max nesting ts + 2 + extra) ts)
    = Ok nodes.
Proof.
  intros H H'. apply returns_no_throw_Ok.
  - apply returns_at. lia.
  - now apply no_throw_at.
Qed.

Lemma renderListItems_Ok its o l extra :
  truthy its = true -> field_all well_formed its = true ->
  exists nodes,
    fst (renderListItems (2 * field_max nesting its + 1 + extra) its o l)
    = Ok nodes.
Proof.
  intros H H'. apply returns_no_throw_Ok.
  - apply returns_at. lia.
  - now apply no_throw_at.
Qed.

(** *** The document *)

Lemma render_document_returns fuel ts :
  2 * max_of nesting ts + 1 <= fuel -> returns (render_document fuel ts).
Proof.
  intros H. apply returns_map_from. intros t i Hin.
  apply returns_at. apply (max_of_In nesting) in Hin. lia.
Qed.

Lemma render_document_extends fuel extra ts :
  extends (render_document fuel ts) (render_document (fuel + extra) ts).
Proof.
  apply extends_map_from. intros t i _. apply renderToken_extends.
Qed.

Lemma render_document_no_throw fuel ts :
  forallb well_formed ts = true -> no_throw (render_document fuel ts).
Proof.
  intros H. apply no_throw_map_from. intros t i Hin.
  apply no_throw_at. now apply (proj1 (forallb_forall _ _) H).
Qed.

Lemma MarkdownParser_throws lexer fuel markdownText e w :
  render_document fuel (tokens_of lexer markdownText) = (Throw e, w) ->
  MarkdownParser lexer fuel markdownText = (Throw e, w).
Proof. unfold MarkdownParser. now intros ->. Qed.

(** *** What a successful call built *)

Lemma renderListItems_Ok_inv fuel l o level nodes w :
  renderListItems fuel (Val l) o level = (Ok nodes, w) ->
  exists fuel',
    fuel = S fuel'
    /\ length nodes = length l
    /\ forall n item,
         nth_error l n = Some item ->
         exists node w',
           list_item (renderInlineTokens fuel') (renderListItems fuel')
             o level item n = (Ok node, w')
           /\ nth_error nodes n = Some node.
Proof.
  destruct fuel as [|fuel']; [discriminate|]. intros H.
  exists fuel'. split; [reflexivity|].
  rewrite renderListItems_S in H. unfold renderListItems_body in H.
  simpl in H. apply map_from_Ok_inv in H. exact H.
Qed.

Lemma list_item_Ok_inv I L o level item index node w :
  list_item I L o level item index = (Ok node, w) ->
  exists inline nested,
    node
    = Element View (item_key level index)
        [Style [Sheet "listitemContainer"; Custom "listitemContainer";
                MarginLeft (10 * Z.of_nat level)]]
        (Element Text None [Style [Sheet "listitem"; Custom "listitem"]]
           (NString (bullet o index item) :: inline)
         :: nested)
    /\ fst (I (Val (filter_tokens (fun t => negb (is_list t)) item)))
       = Ok inline
    /\ length nested = length (filter_tokens is_list item)
    /\ forall i listToken,
         nth_error (filter_tokens is_list item) i = Some listToken ->
         exists sub,
           nth_error nested i
           = Some (Element View (nested_key level index i)
                     [Style [Sheet "nestedList"; Custom "nestedList";
                             MarginLeft 20]] sub)
           /\ fst (L (items listToken) (ordered listToken) (level + 1))
              = Ok sub.
Proof.
  unfold list_item. intros H.
  apply bind_Ok_inv in H. destruct H as (inline & w1 & w2 & Hi & H & _).
  apply bind_Ok_inv in H. destruct H as (nested & w3 & w4 & Hn & H & _).
  injection H as <- _. exists inline, nested.
  split; [reflexivity|]. split; [now rewrite Hi|].
  apply map_from_Ok_inv in Hn. destruct Hn as [Hlen Hn].
  split; [exact Hlen|]. intros i lt Hlt.
  destruct (Hn i lt Hlt) as (b & w' & Hb & Hnth).
  unfold nested_list in Hb. apply bind_Ok_inv in Hb.
  destruct Hb as (sub & w5 & w6 & Hsub & Hb & _).
  injection Hb as <-. exists sub. split; [exact Hnth|].
  now rewrite Hsub.
Qed.

Lemma filter_tokens_partition item :
  Permutation
    (filter_tokens is_list item
     ++ filter_tokens (fun t => negb (is_list t)) item)
    (field_list (tokens item)).
Proof.
  unfold filter_tokens. destruct (tokens item) as [| |ts]; simpl;
    try constructor.
  induction ts as [|t ts IH]; simpl; [constructor|].
  destruct (is_list t); simpl.
  - now constructor.
  - symmetry. apply Permutation_cons_app. now symmetry.
Qed.

End WalkFacts.

(** C9. The walk terminates on every finite token tree, however deep
    its lists nest.  Every object below a token lies strictly less deep
    than the token, and the mutual recursion of [renderToken],
    [renderInlineTokens] and [renderListItems] never needs a call stack
    deeper than [2 * nesting + 1]: with that budget, and with any larger
    one, the call returns, and returns the same result; on a well-formed
    tree the result is a render node.  The same holds for the sequence of
    tokens of a document. *)
Theorem build_terminates :
  (forall t c, In c (subtokens t) -> nesting c < nesting t)
  /\ (forall (t : Token) (index : Key) (extra : nat),
        let budget := 2 * nesting t + 1 in
        returns (renderToken (budget + extra) t index)
        /\ renderToken (budget + extra) t index = renderToken budget t index
        /\ (well_formed t = true ->
            exists node,
              fst (renderToken (budget + extra) t index) = Ok node))
  /\ (forall (tokens : list Token) (extra : nat),
        let budget := 2 * max_of nesting tokens + 1 in
        returns (render_document (budget + extra) tokens)
        /\ render_document (budget + extra) tokens
           = render_document budget tokens
        /\ (forallb well_formed tokens = true ->
            exists nodes,
              fst (render_document (budget + extra) tokens) = Ok nodes)).
Proof.
  split; [exact TreeFacts.nesting_subtokens|]. split.
  - intros t index extra budget. split; [|split].
    + apply WalkFacts.returns_at. lia.
    + apply WalkFacts.renderToken_extends.
      apply WalkFacts.returns_at. lia.
    + intros H. now apply WalkFacts.renderToken_Ok.
  - intros tokens extra budget. split; [|split].
    + apply WalkFacts.render_document_returns. lia.
    + apply WalkFacts.render_document_extends.
      apply WalkFacts.render_document_returns. lia.
    + intros H. apply WalkFacts.returns_no_throw_Ok.
      * apply WalkFacts.render_document_returns. lia.
      * now apply WalkFacts.render_document_no_throw.
Qed.

(** The triply nested list renders within its budget and with any
    larger one. *)
Example nested3_terminates :
  nesting Samples.nested3 = 8
  /\ well_formed Samples.nested3 = true
  /\ renderToken 17 Samples.nested3 (KNum 0)
     = renderToken 40 Samples.nested3 (KNum 0).
Proof. repeat split; reflexivity. Qed.

(** ** The failure boundary *)

(** Once it has caught an error, the boundary renders the one fallback
    node whatever its children. *)
Lemma boundary_fallback children :
  ErrorBoundary.render ErrorBoundary.getDerivedStateFromError children
  = [ErrorBoundary.fallback].
Proof. reflexivity. Qed.

(** C1 (the code departs from the specification).  An exception raised
    by the build is raised by the component's own body: [MarkdownParser]
    yields no element at all, neither a tree nor the boundary with its
    fallback.  So it is for a document whose second token is a table with
    a null header. *)
Theorem build_exception_escapes_boundary :
  (forall lexer fuel markdownText e w,
      render_document fuel (tokens_of lexer markdownText) = (Throw e, w) ->
      MarkdownParser lexer fuel markdownText = (Throw e, w))
  /\ (forall (markdownText : jsstring) (extra : nat),
        let lexer := fun _ : jsstring =>
          [Samples.paragraph [Samples.text_leaf "x"]; Samples.headless] in
        MarkdownParser lexer (5 + extra) markdownText
        = (Throw null_map, [])).
Proof.
  split; [exact WalkFacts.MarkdownParser_throws|].
  intros markdownText extra lexer.
  apply WalkFacts.MarkdownParser_throws.
  apply WalkFacts.render_document_extends. discriminate.
Qed.

(** ** Lists *)

(** C3. In the output of the list builder the item at position [n + 1]
    starts with its bullet: the position and a dot when the list is
    ordered, otherwise the checked or unchecked box of a task item, and
    the round bullet for any other item.  The numbering text of the source
    ([raw], [start]) has no part in it.  A well-formed list is built
    within the budget its depth fixes. *)
Theorem list_bullets :
  forall (item_list : list Token) (is_ordered : bool) (level : nat),
    (forallb well_formed item_list = true ->
     forall extra, exists nodes,
       fst (renderListItems (2 * max_of nesting item_list + 1 + extra)
              (Val item_list) is_ordered level) = Ok nodes)
    /\ (forall fuel nodes log,
          renderListItems fuel (Val item_list) is_ordered level
          = (Ok nodes, log) ->
          length nodes = length item_list
          /\ forall n item,
               nth_error item_list n = Some item ->
               exists key style inline nested prefix,
                 nth_error nodes n
                 = Some (Element View key style
                           (Element Text None
                              [Style [Sheet "listitem"; Custom "listitem"]]
                              (NString prefix :: inline)
                            :: nested))
                 /\ (is_ordered = true ->
                     prefix = JS.of_nat (n + 1) ++ JS.lit ". ")
                 /\ (is_ordered = false -> task item = true ->
                     checked item = true -> prefix = checked_box)
                 /\ (is_ordered = false -> task item = true ->
                     checked item = false -> prefix = unchecked_box)
                 /\ (is_ordered = false -> task item = false ->
                     prefix = round_bullet)
                 /\ (forall r s,
                       bullet is_ordered n (set_raw r (set_start s item))
                       = prefix)).
Proof.
  intros item_list is_ordered level. split.
  - intros Hwf extra.
    now apply (WalkFacts.renderListItems_Ok (Val item_list)).
  - intros fuel nodes log H.
    apply WalkFacts.renderListItems_Ok_inv in H.
    destruct H as (fuel' & -> & Hlen & Hnth).
    split; [exact Hlen|]. intros n item Hn.
    destruct (Hnth n item Hn) as (node & w' & Hitem & Hnode).
    apply WalkFacts.list_item_Ok_inv in Hitem.
    destruct Hitem as (inline & nested & -> & _).
    eexists _, _, inline, nested, (bullet is_ordered n item).
    split; [exact Hnode|].
    unfold bullet; simpl.
    repeat split; intros; subst;
      repeat match goal with H : _ = _ |- _ => rewrite H end; reflexivity.
Qed.

(** A list written [5. a], [6. b] is numbered from 1; a task list shows
    its boxes. *)
Example list_bullets_samples :
  let firsts (m : M (list Node)) :=
    match fst m with
    | Ok nodes =>
        map (fun n => match n with
                      | Element _ _ _ (Element _ _ _ (b :: _) :: _) => b
                      | _ => NNull
                      end) nodes
    | _ => []
    end in
  firsts (renderListItems 5
            (Val [set_raw (JS.lit "5. a") (Samples.plain_item "a");
                  set_raw (JS.lit "6. b") (Samples.plain_item "b")]) true 0)
  = [NString (JS.lit "1. "); NString (JS.lit "2. ")]
  /\ firsts (renderListItems 5
               (Val [set_checked true
                       (set_task true (Samples.plain_item "a"));
                     set_task true (Samples.plain_item "b");
                     Samples.plain_item "c"]) false 0)
     = [NString checked_box; NString unchecked_box; NString round_bullet]
  /\ JS.of_nat 12 ++ JS.lit ". " = JS.lit "12. ".
Proof. repeat split; reflexivity. Qed.

Lemma bullets_at_container off key a b m children :
  bullets_at off (Element View key [Style [Sheet a; Custom b; MarginLeft m]]
                    children)
  = flat_map (bullets_at (off + m)) children.
Proof.
  simpl. unfold margin_of, margin_attr, margin_item. simpl.
  now rewrite !Z.add_0_r.
Qed.

Lemma bullets_at_item_text off b inline :
  bullets_at off (Element Text None
                    [Style [Sheet "listitem"; Custom "listitem"]]
                    (NString b :: inline))
  = [(off, b)].
Proof. simpl. now rewrite Z.add_0_r. Qed.

(** The bullets of a built list, with their indentation: an item's own
    bullet comes first, at the indentation of its level, and every bullet
    of the lists nested in it lies deeper. *)
Lemma list_offsets fuel :
  forall its o level nodes w,
    renderListItems fuel its o level = (Ok nodes, w) ->
    forall off n node,
      nth_error nodes n = Some node ->
      exists b rest,
        bullets_at off node = ((off + 10 * Z.of_nat level)%Z, b) :: rest
        /\ Forall (fun p => (off + 10 * Z.of_nat level + 20
                             + 10 * Z.of_nat (level + 1) <= fst p)%Z) rest.
Proof.
  induction fuel as [|fuel IH]; intros its o level nodes w H off n node Hn;
    [discriminate|].
  destruct its as [| |l]; try discriminate.
  apply WalkFacts.renderListItems_Ok_inv in H.
  destruct H as (fuel' & E & Hlen & Hnth). injection E as <-.
  assert (Hlt : n < length l)
    by (rewrite <- Hlen; apply nth_error_Some; congruence).
  destruct (nth_error l n) as [item|] eqn:Hitem;
    [|apply nth_error_None in Hitem; lia].
  destruct (Hnth n item Hitem) as (node' & w' & Hli & Hnode).
  rewrite Hn in Hnode. injection Hnode as <-.
  apply WalkFacts.list_item_Ok_inv in Hli.
  destruct Hli as (inline & nested & -> & _ & Hnl & Hnested).
  exists (bullet o n item).
  exists (flat_map (bullets_at (off + 10 * Z.of_nat level)) nested).
  split.
  - rewrite bullets_at_container.
    change (flat_map ?f (?x :: ?l)) with (f x ++ flat_map f l).
    now rewrite bullets_at_item_text.
  - apply Forall_forall. intros p Hp. apply in_flat_map in Hp.
    destruct Hp as (wrapper & Hw & Hp).
    apply In_nth_error in Hw. destruct Hw as [i Hi].
    assert (Hi' : i < length (filter_tokens is_list item))
      by (rewrite <- Hnl; apply nth_error_Some; congruence).
    destruct (nth_error (filter_tokens is_list item) i) as [lt|] eqn:Hlti;
      [|apply nth_error_None in Hlti; lia].
    destruct (Hnested i lt Hlti) as (sub & Hsub & Hrec).
    rewrite Hi in Hsub. injection Hsub as ->.
    rewrite bullets_at_container in Hp.
    apply in_flat_map in Hp. destruct Hp as (child & Hc & Hp).
    apply In_nth_error in Hc. destruct Hc as [j Hj].
    destruct (renderListItems fuel (items lt) (ordered lt) (level + 1))
      as [o' w''] eqn:Hcall.
    simpl in Hrec. subst o'.
    destruct (IH _ _ _ _ _ Hcall
                (off + 10 * Z.of_nat level + 20)%Z j child Hj)
      as (b' & rest' & Hb & Hrest).
    rewrite Hb in Hp. destruct Hp as [<-|Hp].
    + simpl. lia.
    + rewrite Forall_forall in Hrest. specialize (Hrest p Hp). lia.
Qed.

(** C4. The tokens of a list item fall into its nested [list] tokens
    and the rest.  The rest becomes, after the bullet, the content of the
    one text node styled [listitem]; each nested list is built by the
    list builder at [level + 1] inside its own container.  Margins add
    up, so the bullets of the nested lists lie strictly further right
    than the bullet of the item that holds them.  A well-formed list is
    built within the budget its depth fixes.  For the list
    [- a / - b / - c] nested twice this gives three levels, at 0, 30 and
    70, each with the round bullet. *)
Theorem list_nesting :
  (forall item,
      Permutation
        (filter_tokens is_list item
         ++ filter_tokens (fun t => negb (is_list t)) item)
        (field_list (tokens item)))
  /\ (forall item_list is_ordered level extra,
        forallb well_formed item_list = true ->
        exists nodes,
          fst (renderListItems (2 * max_of nesting item_list + 1 + extra)
                 (Val item_list) is_ordered level) = Ok nodes)
  /\ (forall fuel item_list is_ordered level nodes log,
        renderListItems (S fuel) (Val item_list) is_ordered level
        = (Ok nodes, log) ->
        forall n item,
          nth_error item_list n = Some item ->
          exists node inline nested,
            nth_error nodes n = Some node
            /\ node
               = Element View (item_key level n)
                   [Style [Sheet "listitemContainer";
                           Custom "listitemContainer";
                           MarginLeft (10 * Z.of_nat level)]]
                   (Element Text None
                      [Style [Sheet "listitem"; Custom "listitem"]]
                      (NString (bullet is_ordered n item) :: inline)
                    :: nested)
            /\ fst (renderInlineTokens fuel
                      (Val (filter_tokens (fun t => negb (is_list t)) item)))
               = Ok inline
            /\ length nested = length (filter_tokens is_list item)
            /\ (forall i listToken,
                  nth_error (filter_tokens is_list item) i = Some listToken ->
                  exists sub,
                    nth_error nested i
                    = Some (Element View (nested_key level n i)
                              [Style [Sheet "nestedList"; Custom "nestedList";
                                      MarginLeft 20]] sub)
                    /\ fst (renderListItems fuel (items listToken)
                              (ordered listToken) (level + 1)) = Ok sub)
            /\ (forall off, exists deeper,
                  bullets_at off node
                  = ((off + 10 * Z.of_nat level)%Z, bullet is_ordered n item)
                    :: deeper
                  /\ Forall (fun p => (off + 10 * Z.of_nat level < fst p)%Z)
                            deeper))
  /\ (exists tree,
        fst (renderToken (2 * nesting Samples.nested3 + 1) Samples.nested3
               (KNum 0)) = Ok tree
        /\ bullets_at 0 tree
           = [(0%Z, round_bullet); (30%Z, round_bullet);
              (70%Z, round_bullet)]).
Proof.
  split; [exact WalkFacts.filter_tokens_partition|]. split; [|split].
  - intros item_list is_ordered level extra Hwf.
    now apply (WalkFacts.renderListItems_Ok (Val item_list)).
  - intros fuel item_list is_ordered level nodes log H n item Hn.
    pose proof H as H0.
    apply WalkFacts.renderListItems_Ok_inv in H.
    destruct H as (fuel' & E & Hlen & Hnth). injection E as <-.
    destruct (Hnth n item Hn) as (node & w' & Hitem & Hnode).
    apply WalkFacts.list_item_Ok_inv in Hitem.
    destruct Hitem as (inline & nested & Hshape & Hin & Hnl & Hnested).
    exists node, inline, nested.
    repeat (split; [assumption|]).
    intros off.
    destruct (list_offsets _ _ _ _ _ _ H0 off n node Hnode)
      as (b & rest & Hb & Hrest).
    exists rest. split.
    + rewrite Hb. f_equal. f_equal.
      rewrite Hshape, bullets_at_container in Hb.
      change (flat_map ?f (?x :: ?l)) with (f x ++ flat_map f l) in Hb.
      rewrite bullets_at_item_text in Hb. simpl in Hb. congruence.
    + eapply Forall_impl; [|exact Hrest]. cbv beta. intros p Hp. lia.
  - eexists. split; reflexivity.
Qed.

(** ** Tables *)

Module TableFacts.
Import MonadFacts.

Lemma header_cell_Ok_inv I cell i node w :
  header_cell I cell i = (Ok node, w) -> cell_of I header_style cell node.
Proof.
  unfold header_cell. intros H. apply bind_Ok_inv in H.
  destruct H as (c & w1 & w2 & Hc & H & _). injection H as <- _.
  eexists _, c. split; [reflexivity|]. now rewrite Hc.
Qed.

Lemma body_cell_Ok_inv I r cell i node w :
  body_cell I r cell i = (Ok node, w) -> cell_of I cell_style cell node.
Proof.
  unfold body_cell. intros H. apply bind_Ok_inv in H.
  destruct H as (c & w1 & w2 & Hc & H & _). injection H as <- _.
  eexists _, c. split; [reflexivity|]. now rewrite Hc.
Qed.

Lemma body_row_Ok_inv I row r node w :
  body_row I row r = (Ok node, w) ->
  exists key cells,
    node = Element View key row_style cells
    /\ row_of I cell_style row cells.
Proof.
  unfold body_row. intros H. apply bind_Ok_inv in H.
  destruct H as (cells & w1 & w2 & Hc & H & _). injection H as <- _.
  eexists _, cells. split; [reflexivity|].
  apply map_from_Ok_inv in Hc. destruct Hc as [Hlen Hnth].
  split; [exact Hlen|]. intros c cell Hcell.
  destruct (Hnth c cell Hcell) as (node & w' & Hnode & Hn).
  exists node. split; [exact Hn|]. now apply body_cell_Ok_inv in Hnode.
Qed.

Lemma renderToken_table_inv fuel token index node w :
  kind_of (type token) = Ktable ->
  renderToken fuel token index = (Ok node, w) ->
  exists fuel' hd rs hcells body,
    fuel = S fuel'
    /\ header token = Val hd /\ rows token = Val rs
    /\ node = Element View (Some index)
                [Style [Sheet "table"; Custom "table"]]
                (Element View None row_style hcells :: body)
    /\ row_of (renderInlineTokens fuel') header_style hd hcells
    /\ length body = length rs
    /\ forall r row,
         nth_error rs r = Some row ->
         exists key cells,
           nth_error body r = Some (Element View key row_style cells)
           /\ row_of (renderInlineTokens fuel') cell_style row cells.
Proof.
  intros Hk H. destruct fuel as [|fuel']; [discriminate|].
  rewrite WalkFacts.renderToken_S in H. unfold renderToken_body in H.
  rewrite Hk in H.
  apply bind_Ok_inv in H. destruct H as (hcells & w1 & w2 & Hh & H & _).
  apply bind_Ok_inv in H. destruct H as (body & w3 & w4 & Hb & H & _).
  injection H as <- _.
  destruct (header token) as [| |hd]; try discriminate.
  destruct (rows token) as [| |rs]; try discriminate.
  simpl in Hh, Hb.
  apply map_from_Ok_inv in Hh. destruct Hh as [Hhlen Hhnth].
  apply map_from_Ok_inv in Hb. destruct Hb as [Hblen Hbnth].
  exists fuel', hd, rs, hcells, body.
  repeat (split; [reflexivity|]).
  split; [|split; [exact Hblen|]].
  - split; [exact Hhlen|]. intros c cell Hcell.
    destruct (Hhnth c cell Hcell) as (n & w' & Hn & Hnth).
    exists n. split; [exact Hnth|]. now apply header_cell_Ok_inv in Hn.
  - intros r row Hrow.
    destruct (Hbnth r row Hrow) as (n & w' & Hn & Hnth).
    apply body_row_Ok_inv in Hn. destruct Hn as (key & cells & -> & Hcells).
    now exists key, cells.
Qed.

End TableFacts.

(** C5. A built table is one header row followed by one row per entry of
    [rows], in order: [1 + |rows|] rows.  The header row has one cell per
    header cell, and each body row one cell per cell of its own source
    row, be it shorter or longer than the header.  Every cell holds the
    inline rendering of its cell's tokens.  A well-formed table is built
    within the budget its depth fixes. *)
Theorem table_grid :
  forall (token : Token) (index : Key),
    kind_of (type token) = Ktable ->
    (well_formed token = true ->
     forall extra, exists node,
       fst (renderToken (2 * nesting token + 1 + extra) token index)
       = Ok node)
    /\ (forall fuel node log,
          renderToken (S fuel) token index = (Ok node, log) ->
          exists hd rs built_rows hcells body,
            header token = Val hd /\ rows token = Val rs
            /\ node = Element View (Some index)
                        [Style [Sheet "table"; Custom "table"]] built_rows
            /\ built_rows
               = Element View None row_style hcells :: body
            /\ length built_rows = 1 + length rs
            /\ length hcells = length hd
            /\ row_of (renderInlineTokens fuel)
                 header_style hd hcells
            /\ forall r row,
                 nth_error rs r = Some row ->
                 exists key cells,
                   nth_error body r
                   = Some (Element View key row_style cells)
                   /\ length cells = length row
                   /\ row_of (renderInlineTokens fuel)
                        cell_style row cells).
Proof.
  intros token index Hk. split.
  - intros Hwf extra. now apply WalkFacts.renderToken_Ok.
  - intros fuel node log H.
    apply (TableFacts.renderToken_table_inv _ _ _ _ _ Hk) in H.
    destruct H as (fuel' & hd & rs & hcells & body & E & Hh & Hr & -> & Hhd
                   & Hlen & Hrows).
    injection E as <-.
    exists hd, rs, (Element View None row_style hcells :: body),
      hcells, body.
    repeat (split; [assumption || reflexivity|]).
    split; [simpl; now rewrite Hlen|].
    split; [exact (proj1 Hhd)|]. split; [exact Hhd|].
    intros r row Hrow. destruct (Hrows r row Hrow) as (key & cells & Hn & Hc).
    exists key, cells. split; [exact Hn|]. split; [exact (proj1 Hc)|exact Hc].
Qed.

(** The ragged sample is a well-formed table, so it is built. *)
Lemma table_grid_witness :
  kind_of (type Samples.ragged) = Ktable
  /\ exists node,
       fst (renderToken (2 * nesting Samples.ragged + 1 + 0)
              Samples.ragged (KNum 0)) = Ok node.
Proof.
  split; [reflexivity|].
  exact (proj1 (table_grid Samples.ragged (KNum 0) eq_refl) eq_refl 0).
Defined.

(** Its rows of 2, 1 and 3 cells stay as they are under the header of 2. *)
Example ragged_rows :
  match fst (renderToken 7 Samples.ragged (KNum 0)) with
  | Ok (Element View _ _ built_rows) =>
      map (fun n => match n with
                    | Element _ _ _ cells => length cells
                    | _ => 0
                    end) built_rows
  | _ => []
  end = [2; 2; 1; 3].
Proof. reflexivity. Qed.

(** ** Inline runs *)

(** C8. The fragments of an inline run are the concatenation, in
    order, of one part per child.  The part of a [text] child that carries
    child tokens is the run of those tokens, spliced in place (its literal
    [text] is not emitted); the part of any other child is the single node
    [renderToken] gives for it.  A well-formed run is built within the
    budget its depth fixes. *)
Theorem inline_flattening :
  forall inlineTokens : list Token,
    (forallb well_formed inlineTokens = true ->
     forall extra, exists nodes,
       fst (renderInlineTokens (2 * max_of nesting inlineTokens + 2 + extra)
              (Val inlineTokens)) = Ok nodes)
    /\ (forall fuel nodes log,
          renderInlineTokens (S fuel) (Val inlineTokens) = (Ok nodes, log) ->
          exists parts,
            nodes = concat parts
            /\ length parts = length inlineTokens
            /\ forall i t,
                 nth_error inlineTokens i = Some t ->
                 exists part,
                   nth_error parts i = Some part
                   /\ if is_text t && truthy (tokens t)
                      then fst (renderInlineTokens fuel (tokens t)) = Ok part
                      else exists n,
                          part = [n]
                          /\ fst (renderToken fuel t
                                    (KStr (JS.lit "in-" ++ JS.of_nat i)))
                             = Ok n).
Proof.
  intros inlineTokens. split.
  - intros Hwf extra.
    now apply (WalkFacts.renderInlineTokens_Ok (Val inlineTokens)).
  - intros fuel nodes log H.
    rewrite WalkFacts.renderInlineTokens_S in H.
    unfold renderInlineTokens_body in H.
    apply MonadFacts.bind_Ok_inv in H.
    destruct H as (parts & w1 & w2 & Hp & H & _). injection H as <- _.
    exists parts. split; [reflexivity|].
    simpl in Hp. apply MonadFacts.map_from_Ok_inv in Hp.
    destruct Hp as [Hlen Hnth]. split; [exact Hlen|].
    intros i t Ht. destruct (Hnth i t Ht) as (part & w' & Hpart & Hi).
    exists part. split; [exact Hi|].
    unfold inline_part in Hpart. simpl in Hpart.
    destruct (is_text t && truthy (tokens t)).
    + now rewrite Hpart.
    + apply MonadFacts.bind_Ok_inv in Hpart.
      destruct Hpart as (n & w3 & w4 & Hn & Hr & _). injection Hr as <- _.
      exists n. split; [reflexivity|]. simpl. now rewrite Hn.
Qed.

(** A [text] token holding [strong a] and the text [ b] contributes those
    two fragments between its neighbours, not the literal [a b]. *)
Example inline_flattening_sample :
  let strong := set_text (Val (JS.lit "a")) (obj "strong") in
  let formatted :=
    set_tokens (Val [strong; Samples.text_leaf " b"])
      (Samples.text_leaf "a b") in
  fst (renderInlineTokens 5
         (Val [Samples.text_leaf "x"; formatted; Samples.text_leaf "y"]))
  = Ok [NString (JS.lit "x");
        Element Text (Some (KStr (JS.lit "in-0")))
          [Style [Sheet "strong"; Custom "strong"]] [NString (JS.lit "a")];
        NString (JS.lit " b");
        NString (JS.lit "y")].
Proof. reflexivity. Qed.

(** ** Tokens of an unknown kind *)

Module SkipFacts.
Import MonadFacts.

Section Skip.

Context {B : Type} (d : B -> list Node) (f : Token -> nat -> M B).

(** The index handed to the callback only ends up in keys. *)
Hypothesis f_index :
  forall t i j,
    displayed1 d (f t i) = displayed1 d (f t j)
    /\ snd (f t i) = snd (f t j).

Lemma map_from_shift l :
  forall i j,
    displayed d (map_from f i l) = displayed d (map_from f j l)
    /\ snd (map_from f i l) = snd (map_from f j l).
Proof.
  induction l as [|a l IH]; intros i j; [now split|].
  simpl. destruct (f_index a i j) as [Hd Hs].
  destruct (IH (S i) (S j)) as [IHd IHs].
  unfold displayed, displayed1 in *.
  destruct (f a i) as [[b|e|] w], (f a j) as [[b'|e'|] w'];
    simpl in *; try discriminate; subst; try (split; congruence).
  destruct (map_from f (S i) l) as [[bs|e|] v],
           (map_from f (S j) l) as [[bs'|e'|] v'];
    simpl in *; try discriminate; subst; split; congruence.
Qed.

Variable u : Token.
Variable msg : jsstring.
Variable b0 : B.
Hypothesis f_u : forall i, f u i = (Ok b0, [msg]).
Hypothesis d_b0 : d b0 = [].

Lemma map_from_skip l1 l2 :
  forall i,
    displayed d (map_from f i (l1 ++ u :: l2))
    = displayed d (map_from f i (l1 ++ l2))
    /\ forall bs w,
         map_from f i (l1 ++ l2) = (Ok bs, w) ->
         exists w1 w2,
           w = w1 ++ w2
           /\ snd (map_from f i (l1 ++ u :: l2)) = w1 ++ msg :: w2.
Proof.
  induction l1 as [|a l1 IH]; intros i.
  - simpl. rewrite f_u.
    destruct (map_from_shift l2 (S i) i) as [Hd Hs].
    unfold displayed in *.
    destruct (map_from f (S i) l2) as [[bs|e|] v],
             (map_from f i l2) as [[bs'|e'|] v'];
      simpl in *; try discriminate; subst.
    + split.
      * rewrite d_b0. simpl. exact Hd.
      * intros bs0 w E. injection E as <- <-. exists [], v'.
        now rewrite app_nil_r.
    + split; [exact Hd|discriminate].
    + split; [reflexivity|discriminate].
  - simpl. destruct (IH (S i)) as [IHd IHl].
    unfold displayed in *.
    destruct (f a i) as [[b|e|] w]; simpl; [|split; [reflexivity|discriminate]..].
    destruct (map_from f (S i) (l1 ++ u :: l2)) as [[bs|e|] v],
             (map_from f (S i) (l1 ++ l2)) as [[bs'|e'|] v'];
      simpl in *; try discriminate.
    + split; [injection IHd as IHd; now rewrite IHd|].
      intros bs0 w0 E. injection E as <- <-.
      destruct (IHl _ _ eq_refl) as (w1 & w2 & -> & ->).
      exists (w ++ w1), w2.
      now rewrite !app_nil_r, <- !app_assoc.
    + split; [exact IHd|discriminate].
    + split; [reflexivity|discriminate].
Qed.

End Skip.

Lemma flat_map_concat {A B} (g : A -> list B) (ls : list (list A)) :
  flat_map g (concat ls) = flat_map (flat_map g) ls.
Proof.
  induction ls as [|l ls IH]; simpl; [reflexivity|].
  now rewrite flat_map_app, IH.
Qed.

(** The key of a token's node is all that [index] decides. *)
Lemma renderToken_index fuel t k k' :
  displayed1 visible (renderToken fuel t k)
  = displayed1 visible (renderToken fuel t k')
  /\ snd (renderToken fuel t k) = snd (renderToken fuel t k').
Proof.
  destruct fuel as [|fuel]; [now split|].
  rewrite !WalkFacts.renderToken_S. unfold renderToken_body, displayed1.
  destruct (kind_of (type t)); try (now split);
    try (match goal with
         | |- context [bind ?m _] =>
             destruct m as [[c|e|] w]; simpl; now split
         end).
  (* table *)
  destruct (field_map (header_cell (renderInlineTokens fuel)) (header t))
    as [[hd|e|] w]; simpl; try (now split).
  destruct (field_map (body_row (renderInlineTokens fuel)) (rows t))
    as [[body|e|] w']; simpl; now split.
Qed.

Lemma inline_part_index fuel t i j :
  let part := inline_part (renderInlineTokens fuel) (renderToken fuel) in
  displayed1 (flat_map visible) (part t i)
  = displayed1 (flat_map visible) (part t j)
  /\ snd (part t i) = snd (part t j).
Proof.
  simpl. unfold inline_part.
  destruct (is_text t && truthy (tokens t)); [now split|].
  destruct (renderToken_index fuel t
              (KStr (JS.lit "in-" ++ JS.of_nat i))
              (KStr (JS.lit "in-" ++ JS.of_nat j))) as [Hd Hs].
  unfold displayed1 in *.
  destruct (renderToken fuel t (KStr (JS.lit "in-" ++ JS.of_nat i)))
    as [[n|e|] w],
    (renderToken fuel t (KStr (JS.lit "in-" ++ JS.of_nat j)))
    as [[n'|e'|] w'];
    simpl in *; try discriminate; subst; split; congruence.
Qed.

(** A token of a kind outside the dispatch table: a warning and [null]. *)
Lemma renderToken_default fuel u k :
  kind_of (type u) = Kdefault ->
  renderToken (S fuel) u k = (Ok NNull, [unsupported (type u)]).
Proof.
  intros H. rewrite WalkFacts.renderToken_S. unfold renderToken_body.
  now rewrite H.
Qed.

Lemma default_not_text u : kind_of (type u) = Kdefault -> is_text u = false.
Proof.
  intros H. unfold is_text.
  destruct (JS.eqb (type u) (JS.lit "text")) eqn:E; [|reflexivity].
  apply JSFacts.eqb_eq in E. rewrite E in H. discriminate.
Qed.

Lemma inline_part_default fuel u i :
  kind_of (type u) = Kdefault ->
  inline_part (renderInlineTokens (S fuel)) (renderToken (S fuel)) u i
  = (Ok [NNull], [unsupported (type u)]).
Proof.
  intros H. unfold inline_part.
  rewrite (default_not_text _ H), (renderToken_default _ _ _ H).
  reflexivity.
Qed.

Lemma shown_inline fuel ts :
  shown (renderInlineTokens (S fuel) (Val ts))
  = displayed (flat_map visible)
      (map_from (inline_part (renderInlineTokens fuel) (renderToken fuel))
         0 ts)
  /\ snd (renderInlineTokens (S fuel) (Val ts))
     = snd (map_from
              (inline_part (renderInlineTokens fuel) (renderToken fuel))
              0 ts).
Proof.
  rewrite WalkFacts.renderInlineTokens_S.
  unfold renderInlineTokens_body, shown, displayed. simpl.
  unfold array_map.
  destruct (map_from _ 0 ts) as [[parts|e|] w]; simpl; try (now split).
  now rewrite flat_map_concat, app_nil_r.
Qed.

End SkipFacts.

(** C6. A token of a kind the dispatch table lacks yields [null] and one
    warning.  In a document, and in an inline run, the sequence with such
    a token displays what the sequence without it displays, siblings
    intact; it fails only where the sequence without the token fails, and
    the log is the log of the siblings with the warning in its place. *)
Theorem unknown_kind_skipped :
  forall (fuel : nat) (before after : list Token) (unknown : Token),
    kind_of (type unknown) = Kdefault ->
    (forall index,
        renderToken (S fuel) unknown index
        = (Ok NNull, [unsupported (type unknown)])
        /\ visible NNull = [])
    /\ shown (render_document (S fuel) (before ++ unknown :: after))
       = shown (render_document (S fuel) (before ++ after))
    /\ (forall nodes log,
          render_document (S fuel) (before ++ after) = (Ok nodes, log) ->
          exists log1 log2,
            log = log1 ++ log2
            /\ snd (render_document (S fuel) (before ++ unknown :: after))
               = log1 ++ unsupported (type unknown) :: log2)
    /\ shown (renderInlineTokens (S (S fuel))
                (Val (before ++ unknown :: after)))
       = shown (renderInlineTokens (S (S fuel)) (Val (before ++ after)))
    /\ (forall nodes log,
          renderInlineTokens (S (S fuel)) (Val (before ++ after))
          = (Ok nodes, log) ->
          exists log1 log2,
            log = log1 ++ log2
            /\ snd (renderInlineTokens (S (S fuel))
                      (Val (before ++ unknown :: after)))
               = log1 ++ unsupported (type unknown) :: log2).
Proof.
  intros fuel before after unknown Hk.
  split; [intros index; split;
          [now apply SkipFacts.renderToken_default|reflexivity]|].
  pose proof (SkipFacts.map_from_skip visible
                (fun token index => renderToken (S fuel) token (KNum index))
                (fun t i j => SkipFacts.renderToken_index (S fuel) t
                                (KNum i) (KNum j))
                unknown (unsupported (type unknown)) NNull
                (fun i => SkipFacts.renderToken_default fuel unknown
                            (KNum i) Hk)
                eq_refl before after 0) as [Hd Hl].
  split; [exact Hd|]. split; [exact Hl|].
  pose proof (SkipFacts.map_from_skip (flat_map visible)
                (inline_part (renderInlineTokens (S fuel))
                   (renderToken (S fuel)))
                (SkipFacts.inline_part_index (S fuel))
                unknown (unsupported (type unknown)) [NNull]
                (fun i => SkipFacts.inline_part_default fuel unknown i Hk)
                eq_refl before after 0) as [Hd' Hl'].
  destruct (SkipFacts.shown_inline (S fuel) (before ++ unknown :: after))
    as [E1 E2].
  destruct (SkipFacts.shown_inline (S fuel) (before ++ after)) as [E3 E4].
  split; [now rewrite E1, E3|].
  intros nodes log H. rewrite E2.
  rewrite WalkFacts.renderInlineTokens_S in H.
  unfold renderInlineTokens_body in H.
  apply MonadFacts.bind_Ok_inv in H.
  destruct H as (parts & w1 & w2 & Hp & H & ->).
  injection H as _ <-. rewrite app_nil_r.
  exact (Hl' _ _ Hp).
Qed.

(** An [html] token between two paragraphs, and inside a paragraph. *)
Lemma unknown_kind_skipped_witness :
  let p := Samples.paragraph [Samples.text_leaf "x"] in
  shown (render_document 3 ([p] ++ Samples.html :: [p]))
  = shown (render_document 3 ([p] ++ [p]))
  /\ shown (renderInlineTokens 4 (Val ([p] ++ Samples.html :: [p])))
     = shown (renderInlineTokens 4 (Val ([p] ++ [p]))).
Proof.
  pose proof (unknown_kind_skipped 2
                [Samples.paragraph [Samples.text_leaf "x"]]
                [Samples.paragraph [Samples.text_leaf "x"]]
                Samples.html eq_refl) as (_ & H1 & _ & H2 & _).
  exact (conj H1 H2).
Defined.

(** What is displayed there: the paragraphs, and no node for [html]. *)
Example unknown_kind_sample :
  let p := Samples.paragraph [Samples.text_leaf "x"] in
  render_document 3 [p; Samples.html; p]
  = (Ok [Element Text (Some (KNum 0))
           [Style [Sheet "paragraph"; Custom "paragraph"]]
           [NString (JS.lit "x")];
         NNull;
         Element Text (Some (KNum 2))
           [Style [Sheet "paragraph"; Custom "paragraph"]]
           [NString (JS.lit "x")]],
     [unsupported (JS.lit "html")])
  /\ shown (render_document 3 [p; Samples.html; p])
     = Ok [Element Text None
             [Style [Sheet "paragraph"; Custom "paragraph"]]
             [NString (JS.lit "x")];
           Element Text None
             [Style [Sheet "paragraph"; Custom "paragraph"]]
             [NString (JS.lit "x")]].
Proof. split; reflexivity. Qed.

(* ================================================================== *)
(** * Further properties of the recognizers *)

Module ProbeFacts.
Import Extensions Probes ExtensionsFacts.

Lemma indexOf_cons needle a r :
  indexOf needle (a :: r)
  = match JS.strip needle (a :: r) with
    | Some _ => 0%Z
    | None => let i := indexOf needle r in
              if (i <? 0)%Z then (-1)%Z else (i + 1)%Z
    end.
Proof. reflexivity. Qed.

(** An occurrence of the needle at [j] bounds the result. *)
Lemma indexOf_occurrence needle s :
  forall j r, JS.strip needle (skipn j s) = Some r ->
              (0 <= indexOf needle s <= Z.of_nat j)%Z.
Proof.
  induction s as [|a s IH]; intros j r H.
  - rewrite skipn_nil in H. simpl. rewrite H. lia.
  - destruct j as [|j].
    + simpl in H. rewrite indexOf_cons, H. lia.
    + rewrite indexOf_cons.
      destruct (JS.strip needle (a :: s)); [lia|].
      simpl in H. specialize (IH j r H). cbv zeta.
      destruct (Z.ltb_spec (indexOf needle s) 0); lia.
Qed.

Lemma strip_prefix p q r : JS.strip p ((p ++ q) ++ r) = Some (q ++ r).
Proof. rewrite <- app_assoc. apply strip_app. Qed.

(** What a successful tokenizer tells about the source. *)
Lemma tokenizer_inv opener close ty (setter : jsstring -> Token -> Token)
      src tok :
  match exec opener close src with
  | Some (m0, m1, _) => Some (setter (JS.trim m1) (set_raw m0 (obj ty)))
  | None => None
  end = Some tok ->
  (forall s t, raw (setter s t) = raw t) ->
  exists m1 rest,
    src = (opener ++ m1 ++ [close]) ++ rest
    /\ m1 <> [] /\ ~ In close m1
    /\ tok = setter (JS.trim m1) (set_raw (opener ++ m1 ++ [close]) (obj ty))
    /\ raw tok = opener ++ m1 ++ [close].
Proof.
  intros H Hraw.
  destruct (exec opener close src) as [[[m0 m1] rest]|] eqn:E;
    [|discriminate].
  apply exec_iff in E. destruct E as (-> & -> & Hne & Hfree).
  injection H as <-. exists m1, rest. rewrite Hraw. simpl. auto.
Qed.

Lemma superscript_inv src tok :
  superscript_tokenizer src = Some tok ->
  exists m1 rest,
    src = ([caret] ++ m1 ++ [caret]) ++ rest /\ m1 <> [] /\ ~ In caret m1
    /\ tok = set_text (Val (JS.trim m1))
               (set_raw ([caret] ++ m1 ++ [caret]) (obj "superscript"))
    /\ raw tok = [caret] ++ m1 ++ [caret].
Proof.
  intros H.
  apply (tokenizer_inv [caret] caret "superscript"
           (fun s => set_text (Val s))); [exact H|reflexivity].
Qed.

Lemma subscript_inv src tok :
  subscript_tokenizer src = Some tok ->
  exists m1 rest,
    src = ([tilde] ++ m1 ++ [tilde]) ++ rest /\ m1 <> [] /\ ~ In tilde m1
    /\ tok = set_text (Val (JS.trim m1))
               (set_raw ([tilde] ++ m1 ++ [tilde]) (obj "subscript"))
    /\ raw tok = [tilde] ++ m1 ++ [tilde].
Proof.
  intros H.
  apply (tokenizer_inv [tilde] tilde "subscript"
           (fun s => set_text (Val s))); [exact H|reflexivity].
Qed.

Lemma footnote_inv src tok :
  footnote_tokenizer src = Some tok ->
  exists m1 rest,
    src = (JS.lit "[^" ++ m1 ++ [rbracket]) ++ rest
    /\ m1 <> [] /\ ~ In rbracket m1
    /\ tok = set_text (Val (JS.trim m1))
               (set_raw (JS.lit "[^" ++ m1 ++ [rbracket]) (obj "footnote"))
    /\ raw tok = JS.lit "[^" ++ m1 ++ [rbracket].
Proof.
  intros H.
  apply (tokenizer_inv (JS.lit "[^") rbracket "footnote"
           (fun s => set_text (Val s))); [exact H|reflexivity].
Qed.

Lemma video_inv src tok :
  video_tokenizer src = Some tok ->
  exists m1 rest,
    src = (JS.lit "![[video]](" ++ m1 ++ [rparen]) ++ rest
    /\ m1 <> [] /\ ~ In rparen m1
    /\ tok = set_href (Val (JS.trim m1))
               (set_raw (JS.lit "![[video]](" ++ m1 ++ [rparen])
                  (obj "video"))
    /\ raw tok = JS.lit "![[video]](" ++ m1 ++ [rparen].
Proof.
  intros H.
  apply (tokenizer_inv (JS.lit "![[video]](") rparen "video"
           (fun s => set_href (Val s))); [exact H|reflexivity].
Qed.

End ProbeFacts.

(** X1. A probe never overshoots a match: wherever in [src] a
    recognizer's rule matches, its [start] hook returns a position that
    is not negative and not beyond that place.  So the host, which cuts
    plain text at the probes' positions, cannot step over a construct,
    and a probe returning -1 means the rule matches nowhere. *)
Theorem probes_cover_matches :
  Forall (fun p : (jsstring -> Z) * (jsstring -> option Token) =>
            forall src j tok,
              snd p (skipn j src) = Some tok ->
              (0 <= fst p src <= Z.of_nat j)%Z)
         Probes.registered.
Proof.
  unfold Probes.registered.
  apply Forall_cons;
    [|apply Forall_cons;
       [|apply Forall_cons; [|apply Forall_cons; [|apply Forall_nil]]]];
    simpl; intros src j tok H.
  - apply ProbeFacts.superscript_inv in H.
    destruct H as (m1 & rest & E & _).
    apply (ProbeFacts.indexOf_occurrence _ _ j
             ((m1 ++ [Extensions.caret]) ++ rest)).
    rewrite E. apply ProbeFacts.strip_prefix.
  - apply ProbeFacts.subscript_inv in H.
    destruct H as (m1 & rest & E & _).
    apply (ProbeFacts.indexOf_occurrence _ _ j
             ((m1 ++ [Extensions.tilde]) ++ rest)).
    rewrite E. apply ProbeFacts.strip_prefix.
  - apply ProbeFacts.footnote_inv in H.
    destruct H as (m1 & rest & E & _).
    apply (ProbeFacts.indexOf_occurrence _ _ j
             ((m1 ++ [Extensions.rbracket]) ++ rest)).
    rewrite E. apply ProbeFacts.strip_prefix.
  - apply ProbeFacts.video_inv in H.
    destruct H as (m1 & rest & E & _).
    apply (ProbeFacts.indexOf_occurrence _ _ j
             ((JS.lit "(" ++ m1 ++ [Extensions.rparen]) ++ rest)).
    rewrite E. reflexivity.
Qed.

(** A superscript three code units into the text: its probe says 3. *)
Example probe_sample :
  Probes.superscript_start (JS.lit "ab ^x^ c") = 3%Z
  /\ Probes.video_start (JS.lit "see ![[video]](u)") = 4%Z
  /\ Probes.footnote_start (JS.lit "no marker") = (-1)%Z.
Proof. repeat split; reflexivity. Qed.

Module TrimFacts.

Lemma trimStart_split s :
  exists pre, s = pre ++ JS.trimStart s.
Proof.
  induction s as [|c s [pre IH]]; [now exists []|]. simpl.
  destruct (JS.is_space c).
  - exists (c :: pre). simpl. now f_equal.
  - now exists [].
Qed.

Lemma trimStart_head s c r :
  JS.trimStart s = c :: r -> JS.is_space c = false.
Proof.
  induction s as [|a s IH]; simpl; [discriminate|].
  destruct (JS.is_space a) eqn:E; [exact IH|].
  intros H. injection H as <- _. exact E.
Qed.

Lemma trimStart_id s :
  (forall c r, s = c :: r -> JS.is_space c = false) -> JS.trimStart s = s.
Proof.
  destruct s as [|c r]; [reflexivity|]. intros H. simpl.
  now rewrite (H c r eq_refl).
Qed.

Lemma rev_cons_inv (s : jsstring) c r : rev s = c :: r -> s = rev r ++ [c].
Proof.
  intros H. rewrite <- (rev_involutive s), H. reflexivity.
Qed.

Lemma trim_trimmed s : trimmed (JS.trim s).
Proof.
  unfold JS.trim. set (u := JS.trimStart s).
  set (v := JS.trimStart (rev u)). split; intros c r H.
  - destruct (trimStart_split (rev u)) as [pre Hpre]. fold v in Hpre.
    assert (Hv : v = rev r ++ [c]).
    { rewrite <- (rev_involutive v), H. reflexivity. }
    assert (Hu : u = c :: rev (pre ++ rev r)).
    { rewrite <- (rev_involutive u), Hpre, Hv, app_assoc, rev_app_distr.
      reflexivity. }
    exact (trimStart_head s _ _ Hu).
  - assert (Hv : v = c :: rev r).
    { rewrite <- (rev_involutive v), H, rev_app_distr. reflexivity. }
    exact (trimStart_head (rev u) _ _ Hv).
Qed.

Lemma trim_id s : trimmed s -> JS.trim s = s.
Proof.
  intros [Hhead Hlast]. unfold JS.trim.
  rewrite (trimStart_id s Hhead).
  rewrite trimStart_id; [apply rev_involutive|].
  intros c r H. apply rev_cons_inv in H. exact (Hlast _ _ H).
Qed.

End TrimFacts.

(** X2. At one place in the source at most one of the four recognizers
    matches: their rules start with different code units, so the order in
    which the host tries them cannot change which token is produced. *)
Theorem recognizers_exclusive :
  forall src : jsstring,
    length (flat_map (found src) Extensions.extensions) <= 1.
Proof.
  intros src. unfold Extensions.extensions, found. simpl.
  destruct (Extensions.superscript_tokenizer src) as [t1|] eqn:E1;
    [apply ProbeFacts.superscript_inv in E1;
     destruct E1 as (? & ? & E1 & _)|];
    (destruct (Extensions.subscript_tokenizer src) as [t2|] eqn:E2;
     [apply ProbeFacts.subscript_inv in E2;
      destruct E2 as (? & ? & E2 & _)|]);
    (destruct (Extensions.footnote_tokenizer src) as [t3|] eqn:E3;
     [apply ProbeFacts.footnote_inv in E3;
      destruct E3 as (? & ? & E3 & _)|]);
    (destruct (Extensions.video_tokenizer src) as [t4|] eqn:E4;
     [apply ProbeFacts.video_inv in E4;
      destruct E4 as (? & ? & E4 & _)|]);
    simpl; try lia; exfalso;
    unfold Extensions.caret, Extensions.tilde in *; simpl in *; congruence.
Qed.

(** X3. A recognizer that matches consumes a non-empty prefix of the
    source: [raw] is what the source starts with, it holds at least the
    opener, one captured code unit and the closer, and what remains is
    strictly shorter than the source. *)
Theorem recognizers_consume :
  Forall (fun tokenizer : jsstring -> option Token =>
            forall src tok,
              tokenizer src = Some tok ->
              exists rest,
                src = raw tok ++ rest
                /\ 3 <= length (raw tok)
                /\ length rest < length src)
         Extensions.extensions.
Proof.
  unfold Extensions.extensions.
  apply Forall_cons;
    [|apply Forall_cons;
       [|apply Forall_cons; [|apply Forall_cons; [|apply Forall_nil]]]];
    intros src tok H.
  - apply ProbeFacts.superscript_inv in H.
    destruct H as (m1 & rest & -> & Hne & _ & _ & ->).
    exists rest. split; [reflexivity|].
    destruct m1; [congruence|]. rewrite !length_app. simpl. lia.
  - apply ProbeFacts.subscript_inv in H.
    destruct H as (m1 & rest & -> & Hne & _ & _ & ->).
    exists rest. split; [reflexivity|].
    destruct m1; [congruence|]. rewrite !length_app. simpl. lia.
  - apply ProbeFacts.footnote_inv in H.
    destruct H as (m1 & rest & -> & Hne & _ & _ & ->).
    exists rest. split; [reflexivity|].
    rewrite !length_app. simpl. lia.
  - apply ProbeFacts.video_inv in H.
    destruct H as (m1 & rest & -> & Hne & _ & _ & ->).
    exists rest. split; [reflexivity|].
    rewrite !length_app. simpl. lia.
Qed.

(** X4. The text a recognizer hands on is trimmed: the [text] or [href]
    of its token has no white space at either end.  Trimming such a
    string again changes nothing. *)
Theorem captures_trimmed :
  (forall s, trimmed (JS.trim s)
             /\ JS.trim (JS.trim s) = JS.trim s)
  /\ Forall (fun tokenizer : jsstring -> option Token =>
               forall src tok s,
                 tokenizer src = Some tok ->
                 text tok = Val s \/ href tok = Val s ->
                 trimmed s /\ JS.trim s = s)
            Extensions.extensions.
Proof.
  assert (Ht : forall s, trimmed (JS.trim s) /\ JS.trim (JS.trim s)
                                                = JS.trim s).
  { intros s. split; [apply TrimFacts.trim_trimmed|].
    apply TrimFacts.trim_id, TrimFacts.trim_trimmed. }
  split; [exact Ht|].
  unfold Extensions.extensions.
  apply Forall_cons;
    [|apply Forall_cons;
       [|apply Forall_cons; [|apply Forall_cons; [|apply Forall_nil]]]];
    intros src tok s H Hs.
  - apply ProbeFacts.superscript_inv in H.
    destruct H as (m1 & rest & _ & _ & _ & -> & _). simpl in Hs.
    destruct Hs as [Hs|Hs]; [|discriminate]. injection Hs as <-. apply Ht.
  - apply ProbeFacts.subscript_inv in H.
    destruct H as (m1 & rest & _ & _ & _ & -> & _). simpl in Hs.
    destruct Hs as [Hs|Hs]; [|discriminate]. injection Hs as <-. apply Ht.
  - apply ProbeFacts.footnote_inv in H.
    destruct H as (m1 & rest & _ & _ & _ & -> & _). simpl in Hs.
    destruct Hs as [Hs|Hs]; [|discriminate]. injection Hs as <-. apply Ht.
  - apply ProbeFacts.video_inv in H.
    destruct H as (m1 & rest & _ & _ & _ & -> & _). simpl in Hs.
    destruct Hs as [Hs|Hs]; [discriminate|]. injection Hs as <-. apply Ht.
Qed.

(** White space around a capture goes, white space inside stays. *)
Example trim_sample :
  JS.trim ([9; 32]%N ++ JS.lit "a b" ++ [160; 10]%N) = JS.lit "a b"
  /\ JS.trim [32; 13; 8232]%N = [].
Proof. split; reflexivity. Qed.

(** X5. What a recognizer found is a kind the builder knows: its token
    renders, with one call and without a warning, as one element that
    holds the trimmed capture (for a video, as the player bound to it),
    and the HTML renderer of the same recognizer wraps that very text.
    For a footnote the children of the native node, put together, are
    the renderer's output. *)
Theorem recognized_tokens_render :
  forall (src : jsstring) (tok : Token) (fuel : nat) (index : Key),
    (Extensions.superscript_tokenizer src = Some tok ->
     exists m1,
       raw tok = [Extensions.caret] ++ m1 ++ [Extensions.caret]
       /\ renderToken (S fuel) tok index
          = (Ok (Element Text (Some index)
                   [Style [Sheet "superscript"; Custom "superscript"]]
                   [NString (JS.trim m1)]), [])
       /\ Renderers.superscript_renderer tok
          = JS.lit "<sup>" ++ JS.trim m1 ++ JS.lit "</sup>")
    /\ (Extensions.subscript_tokenizer src = Some tok ->
        exists m1,
          raw tok = [Extensions.tilde] ++ m1 ++ [Extensions.tilde]
          /\ renderToken (S fuel) tok index
             = (Ok (Element Text (Some index)
                      [Style [Sheet "subscript"; Custom "subscript"]]
                      [NString (JS.trim m1)]), [])
          /\ Renderers.subscript_renderer tok
             = JS.lit "<sub>" ++ JS.trim m1 ++ JS.lit "</sub>")
    /\ (Extensions.footnote_tokenizer src = Some tok ->
        exists m1 children,
          raw tok = JS.lit "[^" ++ m1 ++ [Extensions.rbracket]
          /\ renderToken (S fuel) tok index
             = (Ok (Element Text (Some index)
                      [Style [Sheet "footnote"; Custom "footnote"]]
                      (map NString children)), [])
          /\ children = [JS.lit "["; JS.trim m1; JS.lit "]"]
          /\ Renderers.footnote_renderer tok = concat children)
    /\ (Extensions.video_tokenizer src = Some tok ->
        exists m1,
          raw tok = JS.lit "![[video]](" ++ m1 ++ [Extensions.rparen]
          /\ renderToken (S fuel) tok index
             = (Ok (Element View (Some index)
                      [Style [Sheet "video"; Custom "video"]]
                      [Element Video None
                         [SourceUri (Val (JS.trim m1));
                          Style [Sheet "videoPlayer"];
                          Controls;
                          ResizeMode "contain";
                          AccessibilityLabel (Val (JS.lit "Video content"));
                          Paused] []]), [])
          /\ Renderers.video_renderer tok
             = JS.lit "<video src=" ++ Renderers.quote ++ JS.trim m1
               ++ Renderers.quote ++ JS.lit " controls></video>").
Proof.
  intros src tok fuel index. repeat split; intros H.
  - apply ProbeFacts.superscript_inv in H.
    destruct H as (m1 & rest & _ & _ & _ & -> & Hraw).
    exists m1. repeat split.
  - apply ProbeFacts.subscript_inv in H.
    destruct H as (m1 & rest & _ & _ & _ & -> & Hraw).
    exists m1. repeat split.
  - apply ProbeFacts.footnote_inv in H.
    destruct H as (m1 & rest & _ & _ & _ & -> & Hraw).
    exists m1, [JS.lit "["; JS.trim m1; JS.lit "]"].
    repeat split.
  - apply ProbeFacts.video_inv in H.
    destruct H as (m1 & rest & _ & _ & _ & -> & Hraw).
    exists m1. repeat split.
Qed.

(** ** Further properties of the normalisation *)

Module NormalFacts.
Import LineFacts.

Lemma normalized_id s : ~ In CR s -> normalizedMarkdown s = s.
Proof.
  induction s as [|c r IH]; [reflexivity|]. intros H.
  rewrite normalized_cons.
  destruct (N.eqb_spec c CR) as [->|Hc]; [simpl in H; tauto|].
  rewrite IH; [reflexivity|]. simpl in H. tauto.
Qed.

Lemma normalized_length_le n :
  forall s, length s <= n ->
            length (normalizedMarkdown s) <= length s.
Proof.
  induction n as [|n IH]; intros s Hn.
  - destruct s; simpl in *; lia.
  - destruct s as [|c r]; [simpl; lia|]. simpl in Hn.
    rewrite normalized_cons.
    destruct (N.eqb c CR).
    + destruct r as [|c' r']; [simpl; lia|]. simpl in Hn.
      destruct (N.eqb c' LF).
      * specialize (IH r'). simpl. lia.
      * specialize (IH (c' :: r')). simpl in *. lia.
    + specialize (IH r). simpl. lia.
Qed.

Lemma normalized_text_le n :
  forall s, length s <= n ->
            filter not_terminator (normalizedMarkdown s)
            = filter not_terminator s.
Proof.
  induction n as [|n IH]; intros s Hn.
  - destruct s; [reflexivity|simpl in Hn; lia].
  - destruct s as [|c r]; [reflexivity|]. simpl in Hn.
    rewrite normalized_cons.
    destruct (N.eqb_spec c CR) as [->|Hc].
    + destruct r as [|c' r']; [reflexivity|]. simpl in Hn.
      destruct (N.eqb_spec c' LF) as [->|Hc'].
      * change (filter not_terminator (LF :: normalizedMarkdown r'))
          with (filter not_terminator (normalizedMarkdown r')).
        change (filter not_terminator (CR :: LF :: r'))
          with (filter not_terminator r').
        apply IH. lia.
      * change (filter not_terminator (LF :: normalizedMarkdown (c' :: r')))
          with (filter not_terminator (normalizedMarkdown (c' :: r'))).
        change (filter not_terminator (CR :: c' :: r'))
          with (filter not_terminator (c' :: r')).
        apply IH. simpl. lia.
    + cbn [filter]. rewrite IH by lia. reflexivity.
Qed.

Lemma normalized_app_le n :
  forall a b,
    length a <= n ->
    last a 0%N <> CR \/ hd 0%N b <> LF ->
    normalizedMarkdown (a ++ b)
    = normalizedMarkdown a ++ normalizedMarkdown b.
Proof.
  induction n as [|n IH]; intros a b Hn Hab.
  - destruct a; [reflexivity|simpl in Hn; lia].
  - destruct a as [|c r]; [reflexivity|]. simpl in Hn.
    cbn [app]. rewrite !normalized_cons.
    destruct (N.eqb_spec c CR) as [->|Hc].
    + destruct r as [|c' r'].
      * cbn [app]. destruct Hab as [Hab|Hab]; [now elim Hab|].
        destruct b as [|c' b']; [reflexivity|]. simpl in Hab.
        destruct (N.eqb_spec c' LF) as [->|Hc']; [now elim Hab|].
        reflexivity.
      * cbn [app]. simpl in Hn.
        destruct (N.eqb c' LF).
        -- cbn [app]. f_equal. apply IH; [lia|].
           destruct r' as [|c'' r'']; [left; discriminate|exact Hab].
        -- cbn [app]. f_equal.
           change (c' :: r' ++ b) with ((c' :: r') ++ b).
           apply IH; [simpl; lia|exact Hab].
    + cbn [app]. f_equal. apply IH; [lia|].
      destruct r as [|c' r']; [left; discriminate|exact Hab].
Qed.

End NormalFacts.

(** X6. Normalising is a projection that touches terminators only: a
    second pass changes nothing, a text without CR is returned as it is,
    the result is never longer than the source, and the code units that
    are neither CR nor LF come out unchanged and in order. *)
Theorem normalization_canonical :
  forall s : jsstring,
    normalizedMarkdown (normalizedMarkdown s) = normalizedMarkdown s
    /\ (~ In CR s -> normalizedMarkdown s = s)
    /\ length (normalizedMarkdown s) <= length s
    /\ filter not_terminator (normalizedMarkdown s)
       = filter not_terminator s.
Proof.
  intros s. split; [|split; [|split]].
  - apply NormalFacts.normalized_id, LineFacts.normalized_no_CR.
  - apply NormalFacts.normalized_id.
  - now apply (NormalFacts.normalized_length_le (length s)).
  - now apply (NormalFacts.normalized_text_le (length s)).
Qed.

(** X7. Normalising a text cut in two gives the two normalised halves
    one after the other, unless the cut falls inside a CRLF: a first half
    ending in CR before a second half starting with LF is one terminator,
    not two. *)
Theorem normalization_of_halves :
  forall a b : jsstring,
    last a 0%N <> CR \/ hd 0%N b <> LF ->
    normalizedMarkdown (a ++ b)
    = normalizedMarkdown a ++ normalizedMarkdown b.
Proof.
  intros a b H. now apply (NormalFacts.normalized_app_le (length a)).
Qed.

(** Two halves cut after a lone CR. *)
Lemma normalization_of_halves_witness :
  normalizedMarkdown ([97; 13]%N ++ [98; 10]%N)
  = normalizedMarkdown [97; 13]%N ++ normalizedMarkdown [98; 10]%N.
Proof.
  apply normalization_of_halves. right. discriminate.
Defined.

(** Cut inside a CRLF the halves give one line break too many. *)
Example normalization_split_crlf :
  normalizedMarkdown ([97; 13]%N ++ [10; 98]%N) = [97; 10; 98]%N
  /\ normalizedMarkdown [97; 13]%N ++ normalizedMarkdown [10; 98]%N
     = [97; 10; 10; 98]%N.
Proof. split; reflexivity. Qed.

(* ================================================================== *)
(** * Further properties of the walk *)

Module EverywhereFacts.
Import MonadFacts.

(** A property of outcomes that every step of the walk keeps holds of
    every call. *)
Section Everywhere.

Variable Q : forall A, M A -> Prop.
Hypothesis Q_ret : forall A (a : A), Q A (ret a).
Hypothesis Q_bind :
  forall A B (m : M A) (f : A -> M B),
    Q A m -> (forall a, Q B (f a)) -> Q B (bind m f).
Hypothesis Q_null : forall A, Q A (throw null_map).
Hypothesis Q_undefined : forall A, Q A (throw undefined_map).
Hypothesis Q_fuel : forall A, Q A out_of_fuel.
Hypothesis Q_warn :
  forall ty, kind_of ty = Kdefault -> Q unit (warn (unsupported ty)).

Lemma Q_map_from {A B} (f : A -> nat -> M B) l :
  (forall a i, Q B (f a i)) -> forall i, Q (list B) (map_from f i l).
Proof.
  intros H. induction l as [|a l IH]; intros i; simpl.
  - apply Q_ret.
  - apply Q_bind; [apply H|]. intros b.
    apply Q_bind; [apply IH|intros; apply Q_ret].
Qed.

Lemma Q_field_map {A B} (f : A -> nat -> M B) arr :
  (forall a i, Q B (f a i)) -> Q (list B) (field_map f arr).
Proof.
  intros H. destruct arr; simpl;
    [apply Q_undefined|apply Q_null|now apply Q_map_from].
Qed.

Lemma everywhere fuel :
  (forall ts, Q _ (renderInlineTokens fuel ts))
  /\ (forall its o l, Q _ (renderListItems fuel its o l))
  /\ (forall t k, Q _ (renderToken fuel t k)).
Proof.
  induction fuel as [|fuel (IHI & IHL & IHR)].
  - repeat split; intros; apply Q_fuel.
  - repeat split.
    + intros ts. rewrite WalkFacts.renderInlineTokens_S.
      unfold renderInlineTokens_body.
      destruct ts as [| |l]; [apply Q_ret| |];
        (apply Q_bind; [|intros; apply Q_ret]);
        apply Q_field_map; intros t i; unfold inline_part;
        (destruct (is_text t && truthy (tokens t)); [apply IHI|]);
        (apply Q_bind; [apply IHR|intros; apply Q_ret]).
    + intros its o l. rewrite WalkFacts.renderListItems_S.
      unfold renderListItems_body. apply Q_field_map.
      intros item index. unfold list_item.
      apply Q_bind; [apply IHI|]. intros inline.
      apply Q_bind; [|intros; apply Q_ret].
      apply Q_map_from. intros lt i. unfold nested_list.
      apply Q_bind; [apply IHL|intros; apply Q_ret].
    + intros t k. rewrite WalkFacts.renderToken_S. unfold renderToken_body.
      destruct (kind_of (type t)) eqn:Hk;
        try apply Q_ret;
        try (apply Q_bind;
             [first [apply IHI | apply IHL]|intros; apply Q_ret]).
      * (* table *)
        apply Q_bind.
        -- apply Q_field_map. intros cell i. unfold header_cell.
           apply Q_bind; [apply IHI|intros; apply Q_ret].
        -- intros hd. apply Q_bind; [|intros; apply Q_ret].
           apply Q_field_map. intros row r. unfold body_row.
           apply Q_bind; [|intros; apply Q_ret].
           apply Q_map_from. intros cell c. unfold body_cell.
           apply Q_bind; [apply IHI|intros; apply Q_ret].
      * (* default *)
        apply Q_bind; [now apply Q_warn|intros; apply Q_ret].
Qed.

Lemma everywhere_document fuel ts : Q _ (render_document fuel ts).
Proof.
  apply Q_map_from. intros t i. apply everywhere.
Qed.

Lemma everywhere_component lexer fuel markdownText :
  Q _ (MarkdownParser lexer fuel markdownText).
Proof.
  unfold MarkdownParser.
  apply Q_bind; [apply everywhere_document|intros; apply Q_ret].
Qed.

End Everywhere.

Lemma type_errors_bind {A B} (m : M A) (f : A -> M B) :
  raises_type_errors_only m ->
  (forall a, raises_type_errors_only (f a)) ->
  raises_type_errors_only (bind m f).
Proof.
  unfold raises_type_errors_only, bind.
  destruct m as [[a|e|] w]; simpl; intros Hm Hf e'.
  - specialize (Hf a e'). now destruct (f a).
  - intros H. injection H as <-. now apply Hm.
  - discriminate.
Qed.

Lemma warnings_bind {A B} (m : M A) (f : A -> M B) :
  Forall is_unsupported (snd m) ->
  (forall a, Forall is_unsupported (snd (f a))) ->
  Forall is_unsupported (snd (bind m f)).
Proof.
  unfold bind. destruct m as [[a|e|] w]; simpl; intros Hm Hf; try exact Hm.
  specialize (Hf a). destruct (f a) as [o w']. simpl in *.
  apply Forall_app. now split.
Qed.

End EverywhereFacts.

(** X8. On token trees whose arrays hold token objects, the component
    raises only where an object lacks what the walk reads without a
    guard: some token of the document is not well formed (a list without
    [items], a table without [header] or [rows], or a [tokens] that is
    [null]), and the exception is then the [TypeError] of calling [map]
    on [null] or on [undefined].  Array elements that are themselves
    [null] and properties of another type are outside these trees. *)
Theorem component_raises_type_errors_only :
  forall (lexer : jsstring -> list Token) (fuel : nat)
         (markdownText : jsstring) (e : string) (w : list jsstring),
    MarkdownParser lexer fuel markdownText = (Throw e, w) ->
    (e = null_map \/ e = undefined_map)
    /\ forallb well_formed (tokens_of lexer markdownText) = false.
Proof.
  intros lexer fuel markdownText e w H. split.
  - apply (EverywhereFacts.everywhere_component
             (fun A => @raises_type_errors_only A)) with
      (lexer := lexer) (fuel := fuel) (markdownText := markdownText).
    + intros A a e' H'. discriminate.
    + intros A B. apply EverywhereFacts.type_errors_bind.
    + intros A e' H'. injection H' as <-. now left.
    + intros A e' H'. injection H' as <-. now right.
    + intros A e' H'. discriminate.
    + intros ty _ e' H'. discriminate.
    + now rewrite H.
  - destruct (forallb well_formed (tokens_of lexer markdownText)) eqn:Hwf;
      [|reflexivity].
    exfalso. unfold MarkdownParser in H.
    pose proof (WalkFacts.render_document_no_throw fuel _ Hwf) as Hn.
    destruct (render_document fuel (tokens_of lexer markdownText))
      as [[nodes|e'|] w'] eqn:Hd; simpl in H; try discriminate.
    now apply (Hn e').
Qed.

(** A list token without [items] in the document. *)
Lemma component_raises_type_errors_only_witness :
  MarkdownParser (fun _ => [obj "list"]) 2 [] = (Throw undefined_map, [])
  /\ (undefined_map = null_map \/ undefined_map = undefined_map)
  /\ forallb well_formed [obj "list"] = false.
Proof.
  split; [reflexivity|].
  exact (component_raises_type_errors_only
           (fun _ => [obj "list"]) 2 [] undefined_map [] eq_refl).
Defined.

(** X9. Every line the component logs is the warning of the [default]
    case, "Unsupported token type: " followed by a type that the
    dispatch table lacks: the walk logs nothing else, whether it ends
    with a tree or with an exception. *)
Theorem component_logs_unsupported_only :
  forall (lexer : jsstring -> list Token) (fuel : nat)
         (markdownText : jsstring),
    Forall is_unsupported (snd (MarkdownParser lexer fuel markdownText)).
Proof.
  intros lexer fuel markdownText.
  apply (EverywhereFacts.everywhere_component
           (fun A m => Forall is_unsupported (snd m))).
  - intros A a. constructor.
  - intros A B. apply EverywhereFacts.warnings_bind.
  - intros A. constructor.
  - intros A. constructor.
  - intros A. constructor.
  - intros ty Hty. constructor; [|constructor]. now exists ty.
Qed.

Module BuiltFacts.
Import MonadFacts.

Lemma built_ret {A} (P : A -> Prop) a : P a -> built P (ret a).
Proof. intros H a' w E. injection E as <- _. exact H. Qed.

Lemma built_bind {A B} (P : A -> Prop) (R : B -> Prop) m (f : A -> M B) :
  built P m -> (forall a, P a -> built R (f a)) -> built R (bind m f).
Proof.
  intros Hm Hf b w E. apply bind_Ok_inv in E.
  destruct E as (a & w1 & w2 & Ea & Eb & _).
  exact (Hf a (Hm _ _ Ea) _ _ Eb).
Qed.

Lemma built_map_from {A B} (P : B -> Prop) (f : A -> nat -> M B) l :
  (forall a i, built P (f a i)) ->
  forall i, built (Forall P) (map_from f i l).
Proof.
  intros H. induction l as [|a l IH]; intros i; simpl.
  - apply built_ret. constructor.
  - apply (built_bind P); [apply H|]. intros b Hb.
    apply (built_bind (Forall P)); [apply IH|]. intros bs Hbs.
    apply built_ret. now constructor.
Qed.

Lemma built_field_map {A B} (P : B -> Prop) (f : A -> nat -> M B) arr :
  (forall a i, built P (f a i)) -> built (Forall P) (field_map f arr).
Proof.
  intros H. destruct arr; simpl; try (intros a w E; discriminate).
  now apply built_map_from.
Qed.

Lemma Forall_concat' {A} (P : A -> Prop) (ls : list (list A)) :
  Forall (Forall P) ls -> Forall P (concat ls).
Proof.
  induction 1 as [|l ls Hl Hls IH]; simpl; [constructor|].
  apply Forall_app. now split.
Qed.

(** *** Style arrays *)

Definition ordered (n : Node) : Prop := styles_ordered n = true.

Lemma ordered_element tag key attrs children :
  forallb attr_ordered attrs = true ->
  Forall ordered children ->
  ordered (Element tag key attrs children).
Proof.
  intros Ha Hc. unfold ordered. simpl. rewrite Ha. simpl.
  apply forallb_forall. rewrite Forall_forall in Hc. exact Hc.
Qed.

Lemma ordered_child_of f : ordered (child_of f).
Proof. now destruct f. Qed.

Ltac ord :=
  repeat first
    [ assumption
    | apply ordered_child_of
    | apply Forall_nil
    | apply Forall_cons
    | apply ordered_element; [reflexivity|]
    | reflexivity ].

Lemma styles_at fuel :
  (forall ts, built (Forall ordered) (renderInlineTokens fuel ts))
  /\ (forall its o l, built (Forall ordered) (renderListItems fuel its o l))
  /\ (forall t k, built ordered (renderToken fuel t k)).
Proof.
  induction fuel as [|fuel (IHI & IHL & IHR)].
  - repeat split; intros; intros a w E; discriminate.
  - repeat split.
    + intros ts. rewrite WalkFacts.renderInlineTokens_S.
      unfold renderInlineTokens_body.
      destruct ts as [| |l]; [apply built_ret; constructor| |];
        (apply (built_bind (Forall (Forall ordered)));
         [|intros parts Hp; apply built_ret; now apply Forall_concat']);
        apply built_field_map; intros t i; unfold inline_part;
        (destruct (is_text t && truthy (tokens t)); [apply IHI|]);
        (apply (built_bind ordered); [apply IHR|]);
        intros n Hn; apply built_ret; ord.
    + intros its o l. rewrite WalkFacts.renderListItems_S.
      unfold renderListItems_body. apply built_field_map.
      intros item index. unfold list_item.
      apply (built_bind (Forall ordered)); [apply IHI|]. intros inline Hi.
      apply (built_bind (Forall ordered)).
      * apply built_map_from. intros lt i. unfold nested_list.
        apply (built_bind (Forall ordered)); [apply IHL|].
        intros sub Hs. apply built_ret. ord.
      * intros nested Hn. apply built_ret. ord.
    + intros t k. rewrite WalkFacts.renderToken_S. unfold renderToken_body.
      destruct (kind_of (type t));
        try (apply built_ret; ord);
        try (apply (built_bind (Forall ordered));
             [first [apply IHI | apply IHL]
             |intros c Hc; apply built_ret; ord]).
      * (* table *)
        apply (built_bind (Forall ordered)).
        -- apply built_field_map. intros cell i. unfold header_cell.
           apply (built_bind (Forall ordered)); [apply IHI|].
           intros c Hc. apply built_ret. ord.
        -- intros hd Hhd. apply (built_bind (Forall ordered)).
           ++ apply built_field_map. intros row r. unfold body_row.
              apply (built_bind (Forall ordered)).
              ** apply built_map_from. intros cell c. unfold body_cell.
                 apply (built_bind (Forall ordered)); [apply IHI|].
                 intros c' Hc. apply built_ret. ord.
              ** intros cells Hc. apply built_ret. ord.
           ++ intros body Hb. apply built_ret. ord.
      * (* default *)
        apply (built_bind (fun _ : unit => True));
          [intros a w E; exact I|].
        intros _ _. apply built_ret. reflexivity.
Qed.

(** *** Keys *)

Lemma of_uint_inj d : forall d', JS.of_uint d = JS.of_uint d' -> d = d'.
Proof.
  induction d as [|d IH|d IH|d IH|d IH|d IH|d IH|d IH|d IH|d IH|d IH];
    intros d' H; destruct d'; simpl in H; try discriminate;
    try reflexivity; injection H as H; f_equal; now apply IH.
Qed.

Lemma of_nat_inj n m : JS.of_nat n = JS.of_nat m -> n = m.
Proof.
  unfold JS.of_nat. intros H. apply of_uint_inj in H.
  now apply Unsigned.to_uint_inj.
Qed.

Lemma item_key_inj level i j : item_key level i = item_key level j -> i = j.
Proof.
  unfold item_key. intros H. injection H as H.
  apply app_inv_head in H. injection H as H.
  now apply of_nat_inj.
Qed.

(** The element built for a token carries the index it was given. *)
Lemma renderToken_key fuel t k :
  built (keyed k) (renderToken fuel t k).
Proof.
  destruct fuel as [|fuel]; [intros a w E; discriminate|].
  rewrite WalkFacts.renderToken_S. unfold renderToken_body.
  destruct (kind_of (type t));
    try (apply built_ret; reflexivity);
    try (apply (built_bind (fun _ => True)); [intros a w E; exact I|];
         intros c _; apply built_ret; reflexivity).
  - apply built_ret. now destruct (text t).
  - apply (built_bind (fun _ => True)); [intros a w E; exact I|].
    intros hd _.
    apply (built_bind (fun _ => True)); [intros a w E; exact I|].
    intros body _. apply built_ret. reflexivity.
Qed.

End BuiltFacts.

(** X10. In every style array of the tree the component returns, the
    built-in sheet entries come first, the caller's [customStyles]
    entries after them, and the values the walk computes (a heading's
    font size, a list level's left margin) last.  So a custom style
    overrides the built-in one, and nothing overrides the computed
    values. *)
Theorem styles_in_override_order :
  forall (lexer : jsstring -> list Token) (fuel : nat)
         (markdownText : jsstring) (tree : Node) (w : list jsstring),
    MarkdownParser lexer fuel markdownText = (Ok tree, w) ->
    styles_ordered tree = true.
Proof.
  intros lexer fuel markdownText tree w H. unfold MarkdownParser in H.
  apply MonadFacts.bind_Ok_inv in H.
  destruct H as (children & w1 & w2 & Hc & H & _). injection H as <- _.
  assert (Hall : Forall BuiltFacts.ordered children).
  { revert Hc. apply BuiltFacts.built_map_from.
    intros t i. apply BuiltFacts.styles_at. }
  apply BuiltFacts.ordered_element; [reflexivity|].
  constructor; [|constructor].
  now apply BuiltFacts.ordered_element.
Qed.

(** A heading above the nested list. *)
Lemma styles_in_override_order_witness :
  exists tree,
    fst (MarkdownParser
           (fun _ => [set_depth 2 (Samples.paragraph
                                     [Samples.text_leaf "x"]);
                      Samples.nested3]) 17 []) = Ok tree
    /\ styles_ordered tree = true.
Proof.
  eexists. split; [reflexivity|].
  eapply styles_in_override_order with
    (lexer := fun _ => [set_depth 2 (Samples.paragraph
                                       [Samples.text_leaf "x"]);
                        Samples.nested3])
    (fuel := 17) (markdownText := []).
  reflexivity.
Defined.

(** X11. The containers of the items of one list carry pairwise
    different keys, as React asks of siblings: the key is the level and
    the position, and the decimal rendering of the position is
    injective. *)
Theorem list_item_keys_distinct :
  forall fuel item_list is_ordered level nodes w,
    renderListItems fuel (Val item_list) is_ordered level = (Ok nodes, w) ->
    NoDup (map key_of nodes)
    /\ forall n node, nth_error nodes n = Some node ->
                      key_of node = item_key level n.
Proof.
  intros fuel item_list is_ordered level nodes w H.
  apply WalkFacts.renderListItems_Ok_inv in H.
  destruct H as (fuel' & -> & Hlen & Hnth).
  assert (Hkey : forall n node, nth_error nodes n = Some node ->
                                key_of node = item_key level n).
  { intros n node Hn.
    assert (Hlt : n < length item_list)
      by (rewrite <- Hlen; apply nth_error_Some; congruence).
    destruct (nth_error item_list n) as [item|] eqn:Hitem;
      [|apply nth_error_None in Hitem; lia].
    destruct (Hnth n item Hitem) as (node' & w' & Hli & Hnode).
    rewrite Hn in Hnode. injection Hnode as <-.
    apply WalkFacts.list_item_Ok_inv in Hli.
    destruct Hli as (inline & nested & -> & _). reflexivity. }
  split; [|exact Hkey].
  apply NoDup_nth_error. intros i j Hi Hij.
  rewrite length_map in Hi. rewrite !nth_error_map in Hij.
  destruct (nth_error nodes i) as [ni|] eqn:Hni;
    [|apply nth_error_None in Hni; lia].
  destruct (nth_error nodes j) as [nj|] eqn:Hnj; [|discriminate].
  simpl in Hij. injection Hij as Hij.
  rewrite (Hkey _ _ Hni), (Hkey _ _ Hnj) in Hij.
  now apply BuiltFacts.item_key_inj in Hij.
Qed.

(** Twelve items: the keys 0-0 to 0-11. *)
Lemma list_item_keys_distinct_witness :
  exists nodes,
    fst (renderListItems 5
           (Val (repeat (Samples.plain_item "a") 12)) true 0) = Ok nodes
    /\ NoDup (map key_of nodes).
Proof.
  eexists. split; [reflexivity|].
  eapply (fun H => proj1 (list_item_keys_distinct 5
                            (repeat (Samples.plain_item "a") 12)
                            true 0 _ _ H)).
  reflexivity.
Defined.

(** X12. The document has one node per token.  The node at position
    [i] is a string, [null] or [undefined], or else an element, and an
    element there is keyed [i]: every element among the children of the
    scroll view has a key, and no two of them share one. *)
Theorem document_keys_are_positions :
  forall fuel tokens nodes w,
    render_document fuel tokens = (Ok nodes, w) ->
    length nodes = length tokens
    /\ (forall i node, nth_error nodes i = Some node ->
                       keyed (KNum i) node)
    /\ (forall i tag key attrs children,
          nth_error nodes i = Some (Element tag key attrs children) ->
          key = Some (KNum i))
    /\ (forall i j tag key attrs children tag' key' attrs' children',
          nth_error nodes i = Some (Element tag key attrs children) ->
          nth_error nodes j = Some (Element tag' key' attrs' children') ->
          key = key' -> i = j).
Proof.
  intros fuel tokens nodes w H.
  apply MonadFacts.map_from_Ok_inv in H. destruct H as [Hlen Hnth].
  assert (Hkey : forall i node, nth_error nodes i = Some node ->
                                keyed (KNum i) node).
  { intros i node Hn.
    assert (Hlt : i < length tokens)
      by (rewrite <- Hlen; apply nth_error_Some; congruence).
    destruct (nth_error tokens i) as [t|] eqn:Ht;
      [|apply nth_error_None in Ht; lia].
    destruct (Hnth i t Ht) as (node' & w' & Hr & Hnode).
    rewrite Hn in Hnode. injection Hnode as <-.
    exact (BuiltFacts.renderToken_key _ _ _ _ _ Hr). }
  split; [exact Hlen|]. split; [exact Hkey|]. split.
  - intros i tag key attrs children Hi. exact (Hkey _ _ Hi).
  - intros i j tag key attrs children tag' key' attrs' children' Hi Hj E.
    pose proof (Hkey _ _ Hi) as Ki. pose proof (Hkey _ _ Hj) as Kj.
    simpl in Ki, Kj. congruence.
Qed.

(** A paragraph, a token of an unknown kind, a rule: keys 0 and 2. *)
Lemma document_keys_are_positions_witness :
  exists nodes,
    fst (render_document 3
           [Samples.paragraph [Samples.text_leaf "x"]; Samples.html;
            obj "hr"]) = Ok nodes
    /\ map key_of nodes = [Some (KNum 0); None; Some (KNum 2)]
    /\ forall i tag key attrs children,
         nth_error nodes i = Some (Element tag key attrs children) ->
         key = Some (KNum i).
Proof.
  eexists. split; [reflexivity|]. split; [reflexivity|].
  eapply (fun H => proj1 (proj2 (proj2 (document_keys_are_positions 3
                            [Samples.paragraph [Samples.text_leaf "x"];
                             Samples.html; obj "hr"]
                            _ _ H)))).
  reflexivity.
Defined.

(** ** Missing and empty fields *)

(** X13. A [strong], [em], [del] or [link] token without child tokens,
    be [tokens] missing or [null], shows its [text] as its one child and
    raises nothing.  With an empty array of child tokens it shows
    nothing at all: the [text] is a fallback for a missing array only. *)
Theorem wrappers_without_tokens :
  forall (t : Token) (index : Key) (extra : nat),
    In (kind_of (type t)) [Kstrong; Kem; Kdel; Klink] ->
    (truthy (tokens t) = false ->
     exists attrs,
       renderToken (3 + extra) t index
       = (Ok (Element Text (Some index) attrs [child_of (text t)]), []))
    /\ (tokens t = Val [] ->
        exists attrs,
          renderToken (3 + extra) t index
          = (Ok (Element Text (Some index) attrs []), [])).
Proof.
  intros t index extra Hk.
  change (3 + extra) with (S (S (S extra))).
  rewrite WalkFacts.renderToken_S. unfold renderToken_body.
  assert (Hsyn : truthy (tokens t) = false ->
                 renderInlineTokens (S (S extra)) (tokens_or_text t)
                 = (Ok [child_of (text t)], [])).
  { intros Ht. unfold tokens_or_text.
    destruct (tokens t); try discriminate;
      apply WalkFacts.synthesized_text. }
  assert (Hnil : tokens t = Val [] ->
                 renderInlineTokens (S (S extra)) (tokens_or_text t)
                 = (Ok [], [])).
  { intros Ht. unfold tokens_or_text. now rewrite Ht. }
  simpl in Hk.
  destruct Hk as [<-|[<-|[<-|[<-|[]]]]];
    (split; intros Ht;
     [rewrite (Hsyn Ht)|rewrite (Hnil Ht)]; eexists; reflexivity).
Qed.

(** A [strong] token that carries only its text. *)
Lemma wrappers_without_tokens_witness :
  exists attrs,
    renderToken (3 + 0)
      (set_text (Val (JS.lit "bold")) (obj "strong")) (KNum 0)
    = (Ok (Element Text (Some (KNum 0)) attrs
             [child_of (Val (JS.lit "bold"))]), []).
Proof.
  exact (proj1 (wrappers_without_tokens
                  (set_text (Val (JS.lit "bold")) (obj "strong"))
                  (KNum 0) 0 (or_introl eq_refl)) eq_refl).
Defined.

(** X14. For a [heading], a [paragraph] or a [blockquote] a missing
    [tokens] and a [null] one part ways: without the property the
    container is built empty, with [null] the build raises the
    [TypeError] of [null.map]. *)
Theorem containers_null_versus_undefined :
  forall (t : Token) (index : Key) (extra : nat),
    In (kind_of (type t)) [Kheading; Kparagraph; Kblockquote] ->
    (tokens t = Undefined ->
     exists tag attrs,
       renderToken (2 + extra) t index
       = (Ok (Element tag (Some index) attrs []), []))
    /\ (tokens t = Null ->
        renderToken (2 + extra) t index = (Throw null_map, [])).
Proof.
  intros t index extra Hk.
  change (2 + extra) with (S (S extra)).
  rewrite WalkFacts.renderToken_S. unfold renderToken_body.
  simpl in Hk.
  destruct Hk as [<-|[<-|[<-|[]]]];
    (split; intros Ht; rewrite Ht; [eexists _, _|]; reflexivity).
Qed.

(** A paragraph whose [tokens] is [null]. *)
Lemma containers_null_versus_undefined_witness :
  renderToken (2 + 0) (set_tokens Null (obj "paragraph")) (KNum 0)
  = (Throw null_map, []).
Proof.
  exact (proj2 (containers_null_versus_undefined
                  (set_tokens Null (obj "paragraph")) (KNum 0) 0
                  (or_intror (or_introl eq_refl))) eq_refl).
Defined.

(** X15. A list item without [tokens], missing or [null], is built as
    its bullet alone: the optional chaining guards the access, nothing
    is raised and no nested container appears. *)
Theorem item_without_tokens :
  forall (item : Token) (is_ordered : bool) (level extra : nat),
    truthy (tokens item) = false ->
    renderListItems (2 + extra) (Val [item]) is_ordered level
    = (Ok [Element View (item_key level 0)
             [Style [Sheet "listitemContainer"; Custom "listitemContainer";
                     MarginLeft (10 * Z.of_nat level)]]
             [Element Text None
                [Style [Sheet "listitem"; Custom "listitem"]]
                [NString (bullet is_ordered 0 item)]]], []).
Proof.
  intros item is_ordered level extra Ht.
  change (2 + extra) with (S (S extra)).
  rewrite WalkFacts.renderListItems_S.
  unfold renderListItems_body, field_map, array_map, map_from, list_item.
  unfold filter_tokens. destruct (tokens item); try discriminate;
    reflexivity.
Qed.

(** A task item that was ticked and holds nothing else. *)
Lemma item_without_tokens_witness :
  exists node,
    renderListItems (2 + 0)
      (Val [set_checked true (set_task true (obj "list_item"))]) false 1
    = (Ok [node], [])
    /\ bullets_at 0 node = [(10%Z, checked_box)].
Proof.
  eexists. split.
  - exact (item_without_tokens
             (set_checked true (set_task true (obj "list_item")))
             false 1 0 eq_refl).
  - reflexivity.
Defined.

(** X16. A [list] token needs its [items] and a [table] token its
    [header]: when the property is missing or [null] the build raises,
    whatever else the token holds. *)
Theorem arrays_required :
  forall (t : Token) (index : Key) (extra : nat),
    (kind_of (type t) = Klist -> truthy (items t) = false ->
     exists e, renderToken (2 + extra) t index = (Throw e, [])
               /\ (e = null_map \/ e = undefined_map))
    /\ (kind_of (type t) = Ktable -> truthy (header t) = false ->
        exists e, renderToken (2 + extra) t index = (Throw e, [])
                  /\ (e = null_map \/ e = undefined_map))
    /\ (kind_of (type t) = Ktable -> header t = Val [] ->
        truthy (rows t) = false ->
        exists e, renderToken (2 + extra) t index = (Throw e, [])
                  /\ (e = null_map \/ e = undefined_map)).
Proof.
  intros t index extra.
  change (2 + extra) with (S (S extra)).
  rewrite WalkFacts.renderToken_S. unfold renderToken_body.
  split; [|split].
  - intros -> Hi. rewrite WalkFacts.renderListItems_S.
    unfold renderListItems_body.
    destruct (items t); try discriminate; eexists; split;
      try reflexivity; auto.
  - intros -> Hh.
    destruct (header t); try discriminate; eexists; split;
      try reflexivity; auto.
  - intros -> Hh Hr. rewrite Hh.
    destruct (rows t); try discriminate; eexists; split;
      try reflexivity; auto.
Qed.

(** ** Headings *)

Module HeadingFacts.

Lemma fontSize_bounds d : (14 <= fontSize d <= 32)%Z.
Proof.
  unfold fontSize.
  repeat match goal with
         | |- context [(d =? ?n)%Z] => destruct (Z.eqb_spec d n)
         end; lia.
Qed.

Lemma fontSize_default d : (d < 1 \/ 6 < d)%Z -> fontSize d = 14%Z.
Proof.
  intros H. unfold fontSize.
  repeat match goal with
         | |- context [(d =? ?n)%Z] => destruct (Z.eqb_spec d n)
         end; lia.
Qed.

Lemma fontSize_decreasing d d' :
  (1 <= d < d')%Z -> (d' <= 6)%Z -> (fontSize d' < fontSize d)%Z.
Proof.
  intros H H'. unfold fontSize.
  repeat match goal with
         | |- context [(?x =? ?n)%Z] => destruct (Z.eqb_spec x n)
         end; lia.
Qed.

End HeadingFacts.

(** X17. A heading is one text element whose font size is read from
    its depth: between 14 and 32, strictly smaller for a deeper heading
    from depth 1 to 6, and 14 for any depth outside that range, so no
    heading is larger than a first-level one or smaller than a
    sixth-level one. *)
Theorem heading_font_size :
  forall fuel t index node w,
    kind_of (type t) = Kheading ->
    renderToken fuel t index = (Ok node, w) ->
    (exists children,
        node = Element Text (Some index)
                 [Style [Sheet "heading"; Custom "heading";
                         FontSize (fontSize (depth t))]] children
        /\ fst (renderInlineTokens (pred fuel) (tokens t)) = Ok children)
    /\ (14 <= fontSize (depth t) <= 32)%Z
    /\ (forall t', (1 <= depth t < depth t')%Z -> (depth t' <= 6)%Z ->
                   (fontSize (depth t') < fontSize (depth t))%Z)
    /\ ((depth t < 1 \/ 6 < depth t)%Z -> fontSize (depth t) = 14%Z).
Proof.
  intros fuel t index node w Hk H.
  destruct fuel as [|fuel]; [discriminate|].
  rewrite WalkFacts.renderToken_S in H. unfold renderToken_body in H.
  rewrite Hk in H. apply MonadFacts.bind_Ok_inv in H.
  destruct H as (c & w1 & w2 & Hc & H & _). injection H as <- _.
  split; [exists c; split; [reflexivity|simpl; now rewrite Hc]|].
  split; [apply HeadingFacts.fontSize_bounds|]. split.
  - intros t'. apply HeadingFacts.fontSize_decreasing.
  - apply HeadingFacts.fontSize_default.
Qed.

(** A heading of depth 9 is set like one of depth 6. *)
Lemma heading_font_size_witness :
  exists children,
    fst (renderToken 3
           (set_depth 9 (set_tokens (Val [Samples.text_leaf "h"])
                           (obj "heading"))) (KNum 0))
    = Ok (Element Text (Some (KNum 0))
            [Style [Sheet "heading"; Custom "heading"; FontSize 14]]
            children).
Proof.
  destruct (heading_font_size 3
              (set_depth 9 (set_tokens (Val [Samples.text_leaf "h"])
                              (obj "heading"))) (KNum 0)
              _ _ eq_refl eq_refl) as ((children & E & _) & _).
  exists children. injection E as <-. reflexivity.
Defined.

(** ** Runs put together *)

Module ConcatFacts.

Section Concat.

Context {B : Type} (d : B -> list Node) (f : Token -> nat -> M B).

Hypothesis f_index :
  forall t i j,
    displayed1 d (f t i) = displayed1 d (f t j)
    /\ snd (f t i) = snd (f t j).

Lemma displayed_cons_inv x l i a :
  displayed d (map_from f i (x :: l)) = Ok a ->
  exists b0 rest,
    fst (f x i) = Ok b0
    /\ displayed d (map_from f (S i) l) = Ok rest
    /\ a = d b0 ++ rest.
Proof.
  unfold displayed. simpl.
  destruct (f x i) as [[b0|e|] w]; simpl; try discriminate.
  destruct (map_from f (S i) l) as [[bs|e|] w1]; simpl; try discriminate.
  intros H. injection H as <-. now exists b0, (flat_map d bs).
Qed.

Lemma displayed_cons x l i b0 rest :
  fst (f x i) = Ok b0 ->
  displayed d (map_from f (S i) l) = Ok rest ->
  displayed d (map_from f i (x :: l)) = Ok (d b0 ++ rest).
Proof.
  unfold displayed. simpl.
  destruct (f x i) as [[b|e|] w]; simpl; try discriminate.
  intros H. injection H as ->.
  destruct (map_from f (S i) l) as [[bs|e|] w1]; simpl; try discriminate.
  intros H. injection H as <-. reflexivity.
Qed.

Lemma map_from_concat l1 l2 :
  forall i a b,
    displayed d (map_from f i l1) = Ok a ->
    displayed d (map_from f i l2) = Ok b ->
    displayed d (map_from f i (l1 ++ l2)) = Ok (a ++ b).
Proof.
  induction l1 as [|x l1 IH]; intros i a b H1 H2.
  - injection H1 as <-. exact H2.
  - apply displayed_cons_inv in H1.
    destruct H1 as (b0 & rest & Hx & Hrest & ->).
    rewrite <- app_assoc. cbn [app]. apply displayed_cons; [exact Hx|].
    apply IH; [exact Hrest|].
    rewrite <- H2. apply (SkipFacts.map_from_shift d f f_index).
Qed.

End Concat.

End ConcatFacts.

(** X18. What an inline run displays is what its parts display, one
    after the other: when two runs are built, the run made of the first
    followed by the second is built too, and shows the fragments of the
    first and then those of the second (the positions they are rendered
    at end up in keys only). *)
Theorem inline_runs_concatenate :
  forall (fuel : nat) (l1 l2 : list Token) (n1 n2 : list Node),
    shown (renderInlineTokens (S fuel) (Val l1)) = Ok n1 ->
    shown (renderInlineTokens (S fuel) (Val l2)) = Ok n2 ->
    shown (renderInlineTokens (S fuel) (Val (l1 ++ l2))) = Ok (n1 ++ n2).
Proof.
  intros fuel l1 l2 n1 n2 H1 H2.
  rewrite (proj1 (SkipFacts.shown_inline fuel l1)) in H1.
  rewrite (proj1 (SkipFacts.shown_inline fuel l2)) in H2.
  rewrite (proj1 (SkipFacts.shown_inline fuel (l1 ++ l2))).
  apply ConcatFacts.map_from_concat; try assumption.
  apply SkipFacts.inline_part_index.
Qed.

(** A run of two texts after a run of one. *)
Lemma inline_runs_concatenate_witness :
  shown (renderInlineTokens 2
           (Val ([Samples.text_leaf "a"]
                 ++ [Samples.text_leaf "b"; Samples.text_leaf "c"])))
  = Ok ([NString (JS.lit "a")]
        ++ [NString (JS.lit "b"); NString (JS.lit "c")]).
Proof.
  exact (inline_runs_concatenate 1
           [Samples.text_leaf "a"]
           [Samples.text_leaf "b"; Samples.text_leaf "c"]
           _ _ eq_refl eq_refl).
Defined.

(** X19. A document displays what its parts display, one after the
    other: the blocks of two token sequences that are both built appear,
    in order, when the sequences are joined. *)
Theorem documents_concatenate :
  forall (fuel : nat) (l1 l2 : list Token) (n1 n2 : list Node),
    shown (render_document fuel l1) = Ok n1 ->
    shown (render_document fuel l2) = Ok n2 ->
    shown (render_document fuel (l1 ++ l2)) = Ok (n1 ++ n2).
Proof.
  intros fuel l1 l2 n1 n2 H1 H2.
  apply (ConcatFacts.map_from_concat visible
           (fun token index => renderToken fuel token (KNum index)));
    try assumption.
  intros t i j. apply SkipFacts.renderToken_index.
Qed.

(** A paragraph, then the ragged table. *)
Lemma documents_concatenate_witness :
  exists n1 n2,
    shown (render_document 7
             ([Samples.paragraph [Samples.text_leaf "x"]]
              ++ [Samples.ragged])) = Ok (n1 ++ n2)
    /\ length n1 = 1 /\ length n2 = 1.
Proof.
  eexists _, _. split.
  - apply (documents_concatenate 7
             [Samples.paragraph [Samples.text_leaf "x"]]
             [Samples.ragged]); reflexivity.
  - split; reflexivity.
Defined.

(** X20. The whole component, not only its tokens, is blind to the
    line-ending convention: two sources with the same lines give the
    same outcome, tree and log alike, and a source gives what its
    normalised text gives. *)
Theorem component_ignores_line_endings :
  forall (lexer : jsstring -> list Token) (fuel : nat) (s1 s2 : jsstring),
    split_lines s1 = split_lines s2 ->
    MarkdownParser lexer fuel s1 = MarkdownParser lexer fuel s2
    /\ MarkdownParser lexer fuel (normalizedMarkdown s1)
       = MarkdownParser lexer fuel s1.
Proof.
  intros lexer fuel s1 s2 H. unfold MarkdownParser, tokens_of. split.
  - now rewrite (LineFacts.normalized_join s1),
      (LineFacts.normalized_join s2), H.
  - now rewrite (NormalFacts.normalized_id _
                   (LineFacts.normalized_no_CR s1)).
Qed.

(** A heading line and a paragraph line, ended by CRLF and by LF. *)
Lemma component_ignores_line_endings_witness :
  let lexer := fun src : jsstring =>
    [Samples.paragraph [set_text (Val src) (obj "text")]] in
  MarkdownParser lexer 3 [35; 32; 97; 13; 10; 98]%N
  = MarkdownParser lexer 3 [35; 32; 97; 10; 98]%N.
Proof.
  exact (proj1 (component_ignores_line_endings
                  (fun src => [Samples.paragraph
                                 [set_text (Val src) (obj "text")]])
                  3 [35; 32; 97; 13; 10; 98]%N [35; 32; 97; 10; 98]%N
                  eq_refl)).
Defined.

(* ================================================================== *)
(** * Subscript and strikethrough *)

(** C10, as the code has it.  On a source that begins with two tildes
    the subscript rule fails, the run it must capture after the first
    tilde being empty, and no other recognizer matches there: a span
    [~~text~~] that the scan meets at its first tilde is left to the host
    grammar.  One code unit further the rule does match: on [~text~~]
    it takes [~text~].  A subscript match ends on a tilde and the scan
    resumes right behind it, so that is where the scan stands when an
    earlier match closed on the first tilde of the span. *)
Theorem subscript_at_double_tilde :
  (forall rest : jsstring,
      Extensions.subscript_rule
        (Extensions.tilde :: Extensions.tilde :: rest) = None
      /\ Extensions.subscript_tokenizer
           (Extensions.tilde :: Extensions.tilde :: rest) = None
      /\ Forall (fun tokenizer =>
                   tokenizer (Extensions.tilde :: Extensions.tilde :: rest)
                   = None)
                Extensions.extensions)
  /\ (forall inner after : jsstring,
        inner <> [] -> ~ In Extensions.tilde inner ->
        Extensions.subscript_tokenizer
          ([Extensions.tilde] ++ inner
           ++ [Extensions.tilde; Extensions.tilde] ++ after)
        = Some (set_text (Val (JS.trim inner))
                  (set_raw ([Extensions.tilde] ++ inner
                            ++ [Extensions.tilde])
                     (obj "subscript"))))
  /\ (forall (cur : jsstring) (tok : Token),
        Extensions.subscript_tokenizer cur = Some tok ->
        exists inner rest,
          cur = [Extensions.tilde] ++ inner ++ [Extensions.tilde] ++ rest
          /\ inner <> [] /\ ~ In Extensions.tilde inner
          /\ raw tok = [Extensions.tilde] ++ inner ++ [Extensions.tilde]
          /\ advance cur tok = rest).
Proof.
  split; [|split].
  - intros rest.
    assert (H : Extensions.subscript_rule
                  (Extensions.tilde :: Extensions.tilde :: rest) = None)
      by apply (ExtensionsFacts.exec_double [Extensions.tilde]).
    split; [exact H|].
    assert (H' : Extensions.subscript_tokenizer
                   (Extensions.tilde :: Extensions.tilde :: rest) = None)
      by (unfold Extensions.subscript_tokenizer; now rewrite H).
    split; [exact H'|].
    repeat constructor; try exact H'.
  - intros inner after Hne Hfree.
    unfold Extensions.subscript_tokenizer.
    assert (E : Extensions.subscript_rule
                  ([Extensions.tilde] ++ inner
                   ++ [Extensions.tilde; Extensions.tilde] ++ after)
                = Some ([Extensions.tilde] ++ inner ++ [Extensions.tilde],
                        inner, Extensions.tilde :: after)).
    { apply ExtensionsFacts.exec_iff. repeat split; try assumption.
      simpl. rewrite <- !app_assoc. reflexivity. }
    now rewrite E.
  - intros cur tok H. apply ProbeFacts.subscript_inv in H.
    destruct H as (inner & rest & -> & Hne & Hfree & _ & Hraw).
    exists inner, rest. repeat split; try assumption.
    + simpl. rewrite <- !app_assoc. reflexivity.
    + unfold advance. rewrite Hraw.
      rewrite skipn_app, skipn_all, Nat.sub_diag. reflexivity.
Qed.

(** In [~a ~~b~~] the rule takes [~a ~], closing on the first tilde of
    the span [~~b~~]; the scan resumes on [~b~~] and takes [~b~]: the
    text of the strikethrough span has become a subscript. *)
Lemma double_tilde_span_captured :
  captures_span (JS.lit "~a ~~b~~")
  /\ Extensions.subscript_tokenizer (JS.lit "~a ~~b~~")
     = Some (set_text (Val (JS.lit "a"))
               (set_raw (JS.lit "~a ~") (obj "subscript")))
  /\ Extensions.subscript_tokenizer (JS.lit "~b~~")
     = Some (set_text (Val (JS.lit "b"))
               (set_raw (JS.lit "~b~") (obj "subscript"))).
Proof.
  split; [|split; reflexivity].
  exists (JS.lit "~a "), (JS.lit "b"), [],
    (set_text (Val (JS.lit "b")) (set_raw (JS.lit "~b~") (obj "subscript"))).
  split; [reflexivity|]. split; [discriminate|].
  split; [simpl; unfold Extensions.tilde; intuition discriminate|].
  split; [|repeat split; reflexivity].
  change (reached (JS.lit "~a ~~b~~")
            (advance (JS.lit "~a ~~b~~")
               (set_text (Val (JS.lit "a"))
                  (set_raw (JS.lit "~a ~") (obj "subscript"))))).
  apply (@reached_after (JS.lit "~a ~~b~~")
           Extensions.subscript_tokenizer).
  - apply reached_start.
  - simpl. auto.
  - reflexivity.
Qed.
